(** * Route propagation and packet forwarding among named routers

    Shallow embedding of [src/Experiment_06/calculator.js] (classes [Packet]
    and [Router], and the driver [runSimulation]).

    Modelling decisions, all taken from the source:
    - a JavaScript [Map] is an insertion-ordered association list with one
      entry per key; [set] on a present key replaces the value in place and
      keeps the position, [set] on an absent key appends;
    - [Router] objects live in a store indexed by object identity ([Loc]);
      the neighbor map of a router holds handles (locations), not copies, so
      a router that is its own neighbor, or two routers that reference each
      other, share state exactly as the JavaScript objects do;
    - [console.log] appends a structured line to the console of the world;
    - [packet.ttl] is an integer-valued JavaScript number, modelled in [Z];
    - names, prefixes and addresses are JavaScript strings, modelled as
      [string] (sequences of 8-bit characters); [split], [slice] and [join]
      do not look inside a character other than to compare it with the dot;
    - a method call on a handle that the store does not allocate yields
      [None]; JavaScript references are never dangling, and the well-formed
      worlds below never take that branch. *)

From Equations Require Import Equations.
From stdpp Require Import base option list strings.
From Stdlib Require Import ZArith Lia.

Local Open Scope Z_scope.

(** ** Strings: [split], [slice], [join] *)

Module JSString.

(** [s.split(sep)] for a one-character separator. *)
Fixpoint split (sep : Ascii.ascii) (s : string) : list string :=
  match s with
  | EmptyString => [EmptyString]
  | String c s' =>
      if Ascii.eqb c sep then EmptyString :: split sep s'
      else match split sep s' with
           | [] => [String c EmptyString]
           | piece :: pieces => String c piece :: pieces
           end
  end.

(** [pieces.join(sep)]. *)
Fixpoint join (sep : string) (pieces : list string) : string :=
  match pieces with
  | [] => EmptyString
  | [piece] => piece
  | piece :: rest => piece +:+ sep +:+ join sep rest
  end.

(** Number of occurrences of a character. *)
Fixpoint occurrences (c : Ascii.ascii) (s : string) : nat :=
  match s with
  | EmptyString => 0%nat
  | String c' s' => ((if Ascii.eqb c' c then 1 else 0) + occurrences c s')%nat
  end.

Fixpoint all_chars (p : Ascii.ascii -> bool) (s : string) : bool :=
  match s with
  | EmptyString => true
  | String c s' => p c && all_chars p s'
  end.

Definition is_digit (c : Ascii.ascii) : bool :=
  (48 <=? Ascii.nat_of_ascii c)%nat && (Ascii.nat_of_ascii c <=? 57)%nat.

Fixpoint decimal_value (acc : nat) (s : string) : nat :=
  match s with
  | EmptyString => acc
  | String c s' => decimal_value (10 * acc + (Ascii.nat_of_ascii c - 48))%nat s'
  end.

End JSString.

Definition dot : Ascii.ascii := Ascii.ascii_of_nat 46.

(** A decimal octet: one to three digits with value at most 255. *)
Definition is_octet (s : string) : bool :=
  (1 <=? String.length s)%nat && (String.length s <=? 3)%nat
  && JSString.all_chars JSString.is_digit s
  && (JSString.decimal_value 0 s <=? 255)%nat.

(** The dotted-quad address made of four components. *)
Definition dotted_quad (a b c d : string) : string :=
  a +:+ "." +:+ b +:+ "." +:+ c +:+ "." +:+ d.

(** ** Insertion-ordered maps with string keys *)

Abbreviation JSMap V := (list (string * V)).

Fixpoint Map_get {V} (k : string) (m : JSMap V) : option V :=
  match m with
  | [] => None
  | (k', v) :: m' => if decide (k' = k) then Some v else Map_get k m'
  end.

Definition Map_has {V} (k : string) (m : JSMap V) : bool :=
  match Map_get k m with Some _ => true | None => false end.

Fixpoint Map_set {V} (k : string) (v : V) (m : JSMap V) : JSMap V :=
  match m with
  | [] => [(k, v)]
  | (k', v') :: m' =>
      if decide (k' = k) then (k', v) :: m' else (k', v') :: Map_set k v m'
  end.

Definition Map_keys {V} (m : JSMap V) : list string := m.*1.

(** ** Data model *)

Abbreviation Loc := nat.

Record Packet := mkPacket {
  sourceIp : string;
  destinationIp : string;
  content : string;
  ttl : Z
}.

(** [new Packet(sourceIp, destinationIp, content)] *)
Definition Packet_new (src dst body : string) : Packet :=
  mkPacket src dst body 32.

Record Router := mkRouter {
  name : string;
  routingTable : JSMap string;
  neighbors : JSMap Loc
}.

(** One [console.log] line; the constructors follow the tags of the
    template strings in the source. *)
Inductive LogLine :=
| TEXT (line : string)
| INFO (self neighbor : string)
| UPDATE (self networkPrefix nextHop : string)
| ADVERTISE (self : string)
| RECEIVE (self src dst : string)
| DROP_TTL (self : string)
| FORWARD (self dst nextHop : string)
| DELIVER (self dst : string)
| DROP_NOROUTE (self destinationNetwork : string)
| TABLE_HEADER (self : string)
| TABLE_EMPTY
| TABLE_ROW (network nextHop : string)
| TABLE_FOOTER.

Record World := mkWorld {
  routers : list Router;
  console : list LogLine
}.

Definition empty_world : World := mkWorld [] [].

Definition log (line : LogLine) (w : World) : World :=
  mkWorld (routers w) (console w ++ [line]).

Definition store (l : Loc) (r : Router) (w : World) : World :=
  mkWorld (<[l := r]> (routers w)) (console w).

(** ** Router operations *)

(** [new Router(name)]: a fresh object with two empty maps. *)
Definition Router_new (nm : string) (w : World) : Loc * World :=
  (length (routers w), mkWorld (routers w ++ [mkRouter nm [] []]) (console w)).

(** [this.neighbors.set(neighborRouter.name, neighborRouter)], then the
    INFO line. *)
Definition addNeighbor (self neighborRouter : Loc) (w : World) : option World :=
  this ← routers w !! self;
  nb ← routers w !! neighborRouter;
  let this' :=
    mkRouter (name this) (routingTable this)
             (Map_set (name nb) neighborRouter (neighbors this)) in
  Some (log (INFO (name this) (name nb)) (store self this' w)).

(** [receiveRoutingUpdate(networkPrefix, nextHop, metric = 1)]: the UPDATE
    line, then [this.routingTable.set(networkPrefix, nextHop)].  The
    argument [metric_arg] is [None] when the caller omits it. *)
Definition receiveRoutingUpdate (self : Loc) (networkPrefix nextHop : string)
    (metric_arg : option Z) (w : World) : option World :=
  let metric := default 1 metric_arg in
  this ← routers w !! self;
  let w1 := log (UPDATE (name this) networkPrefix nextHop) w in
  let this' :=
    mkRouter (name this) (Map_set networkPrefix nextHop (routingTable this))
             (neighbors this) in
  Some (store self this' w1).

(** Inner loop of [advertiseRoutes]: one routing entry offered to each
    neighbor in turn.  The loop body writes routing tables only, so the
    neighbor map being iterated is the one read when the loop starts. *)
Fixpoint advertise_entry (selfName prefix nextHop : string)
    (nbs : JSMap Loc) (w : World) : option World :=
  match nbs with
  | [] => Some w
  | (neighborName, neighbor) :: rest =>
      if decide (neighborName ≠ nextHop) then
        w' ← receiveRoutingUpdate neighbor prefix selfName None w;
        advertise_entry selfName prefix nextHop rest w'
      else advertise_entry selfName prefix nextHop rest w
  end.

(** Outer loop of [advertiseRoutes].  A [Map] iterator is live: it holds a
    position [i] and reads the entry at that position from the table as it
    is when the iterator advances, so writes made by the loop body to the
    router's own table (a router registered as its own neighbor) are seen.
    [bound] caps the number of iterations. *)
Fixpoint advertise_loop (bound : nat) (i : nat) (self : Loc) (w : World)
    : option World :=
  match bound with
  | O => Some w
  | S bound' =>
      this ← routers w !! self;
      match routingTable this !! i with
      | None => Some w
      | Some (prefix, nextHop) =>
          w' ← advertise_entry (name this) prefix nextHop (neighbors this) w;
          advertise_loop bound' (S i) self w'
      end
  end.

(** [advertiseRoutes()].  The bound is the size of the table when the loop
    starts; [advertise_loop_exhausted] below shows the iterator is at the
    end of the table when the bound is reached. *)
Definition advertiseRoutes (self : Loc) (w : World) : option World :=
  this ← routers w !! self;
  advertise_loop (length (routingTable this)) 0 self
                 (log (ADVERTISE (name this)) w).

(** [getNetworkPrefix(ip)]:
    [ip.split('.').slice(0, 3).join('.') + '.0/24'] *)
Definition getNetworkPrefix (ip : string) : string :=
  JSString.join "." (take 3 (JSString.split dot ip)) +:+ ".0/24".

(** [packet.ttl--] *)
Definition decrement_ttl (packet : Packet) : Packet :=
  mkPacket (sourceIp packet) (destinationIp packet) (content packet)
           (ttl packet - 1).

(** [receivePacket(packet)].  The result carries the packet object after
    the call chain has returned.  The recursion is the nested call
    [nextHopRouter.receivePacket(packet)]; it is well founded because the
    call is made only with a strictly positive, strictly smaller ttl. *)
Equations? receivePacket (self : Loc) (packet : Packet) (w : World)
    : option (Packet * World) by wf (Z.to_nat (ttl packet)) lt :=
  receivePacket self packet w with routers w !! self := {
    | None := None
    | Some this with Z_le_gt_dec (ttl packet - 1) 0 := {
      | left _ :=
          Some (decrement_ttl packet,
                log (DROP_TTL (name this))
                  (log (RECEIVE (name this) (sourceIp packet) (destinationIp packet)) w))
      | right _
          with Map_get (getNetworkPrefix (destinationIp packet)) (routingTable this) := {
        | None :=
            Some (decrement_ttl packet,
                  log (DROP_NOROUTE (name this) (getNetworkPrefix (destinationIp packet)))
                    (log (RECEIVE (name this) (sourceIp packet) (destinationIp packet)) w))
        | Some nextHopRouterName
            with Map_get nextHopRouterName (neighbors this) := {
          | None :=
              Some (decrement_ttl packet,
                    log (DELIVER (name this) (destinationIp packet))
                      (log (RECEIVE (name this) (sourceIp packet) (destinationIp packet)) w))
          | Some nextHop with routers w !! nextHop := {
            | None := None
            | Some nextHopRouter :=
                receivePacket nextHop (decrement_ttl packet)
                  (log (FORWARD (name this) (destinationIp packet) (name nextHopRouter))
                    (log (RECEIVE (name this) (sourceIp packet) (destinationIp packet)) w))
            }
          }
        }
      }
    }.
Proof. simpl. lia. Qed.

(** [printRoutingTable()] *)
Definition printRoutingTable (self : Loc) (w : World) : option World :=
  this ← routers w !! self;
  let w1 := log (TABLE_HEADER (name this)) w in
  let w2 :=
    if decide (length (routingTable this) = 0%nat) then log TABLE_EMPTY w1
    else foldl (fun acc entry => log (TABLE_ROW entry.1 entry.2) acc)
               w1 (routingTable this) in
  Some (log TABLE_FOOTER w2).

(** ** The driver *)

Definition R1_lan : string := "192.168.1.0/24".
Definition R2_lan : string := "192.168.2.0/24".
Definition R3_lan : string := "192.168.3.0/24".

(** Steps 1 to 3 of [runSimulation]: create the routers, plug the cables,
    seed the directly connected networks, print the tables.  The three
    handles are returned with the world. *)
Definition sim_network : option (Loc * Loc * Loc * World) :=
  let w := log (TEXT "--- Initializing Network Simulation ---") empty_world in
  let '(R1, w) := Router_new "R1" w in
  let '(R2, w) := Router_new "R2" w in
  let '(R3, w) := Router_new "R3" w in
  w ← addNeighbor R1 R2 w;
  w ← addNeighbor R2 R1 w;
  w ← addNeighbor R2 R3 w;
  w ← addNeighbor R3 R2 w;
  w ← receiveRoutingUpdate R1 R1_lan "R1" None w;
  w ← receiveRoutingUpdate R2 R2_lan "R2" None w;
  w ← receiveRoutingUpdate R3 R3_lan "R3" None w;
  let w := log (TEXT "--- Routing Tables Before Dynamic Updates ---") w in
  w ← printRoutingTable R1 w;
  w ← printRoutingTable R2 w;
  w ← printRoutingTable R3 w;
  Some (R1, R2, R3, w).

(** Step 4: the advertisement round, in the order R1, R3, R2. *)
Definition sim_convergence : option (Loc * Loc * Loc * World) :=
  '(R1, R2, R3, w) ← sim_network;
  let w := log (TEXT "--- Simulating OSPF Convergence ---") w in
  w ← advertiseRoutes R1 w;
  w ← advertiseRoutes R3 w;
  w ← advertiseRoutes R2 w;
  let w := log (TEXT "--- Routing Tables After Dynamic Updates ---") w in
  w ← printRoutingTable R1 w;
  w ← printRoutingTable R2 w;
  w ← printRoutingTable R3 w;
  Some (R1, R2, R3, w).

Definition myPacket : Packet :=
  Packet_new "192.168.1.10" "192.168.3.15" "Hello World!".

(** Step 5: the packet from PC1 to PC3, handed to R1. *)
Definition runSimulation : option (Packet * World) :=
  '(R1, R2, R3, w) ← sim_convergence;
  let w := log (TEXT "--- Simulating Packet Transmission ---") w in
  let w := log (TEXT "Starting transmission of Packet from 192.168.1.10 to 192.168.3.15 from R1...") w in
  '(packet, w) ← receivePacket R1 myPacket w;
  Some (packet, log (TEXT "--- Simulation Complete ---") w).

(** ** Observations on worlds and consoles *)

(** The router object after [routingTable.set(networkPrefix, nextHop)]. *)
Definition updated (this : Router) (networkPrefix nextHop : string) : Router :=
  mkRouter (name this) (Map_set networkPrefix nextHop (routingTable this))
           (neighbors this).

(** The routing table of the router at a handle. *)
Definition table_at (w : World) (l : Loc) : JSMap string :=
  from_option routingTable [] (routers w !! l).

(** The name of the router at a handle. *)
Definition name_at (w : World) (l : Loc) : string :=
  from_option name EmptyString (routers w !! l).

Definition is_RECEIVE (line : LogLine) : bool :=
  match line with RECEIVE _ _ _ => true | _ => false end.

Definition is_DROP_TTL (line : LogLine) : bool :=
  match line with DROP_TTL _ => true | _ => false end.

(** Number of [receivePacket] invocations recorded in a stretch of console
    output: every invocation prints exactly one RECEIVE line, first thing. *)
Definition invocations (lines : list LogLine) : nat :=
  length (filter (fun line => is_RECEIVE line = true) lines).

(** The UPDATE lines that one routing entry must produce: one per neighbor
    whose key differs from the entry's next hop, in the order of the
    neighbor map; the receiving router prints its own name. *)
Definition entry_updates (w : World) (selfName prefix nextHop : string)
    (nbs : JSMap Loc) : list LogLine :=
  '(neighborName, neighbor) ← nbs;
  if decide (neighborName ≠ nextHop)
  then [UPDATE (name_at w neighbor) prefix selfName] else [].

(** The UPDATE lines that [advertiseRoutes] of a router named [selfName]
    must produce from a table and a neighbor map, in iteration order. *)
Definition split_horizon_updates (w : World) (selfName : string)
    (table : JSMap string) (nbs : JSMap Loc) : list LogLine :=
  '(prefix, nextHop) ← table;
  entry_updates w selfName prefix nextHop nbs.

(** Whether a routing entry with next hop [nextHop] is offered to the router
    object [l]: some neighbor entry points to [l] under a key other than
    [nextHop]. *)
Definition targets (nextHop : string) (nbs : JSMap Loc) (l : Loc) : bool :=
  existsb (fun entry => bool_decide (entry.2 = l ∧ entry.1 ≠ nextHop)) nbs.

(** Whether [advertiseRoutes] offers prefix [q] to the router object [l]. *)
Definition advertised (table : JSMap string) (nbs : JSMap Loc)
    (q : string) (l : Loc) : bool :=
  existsb (fun entry => bool_decide (entry.1 = q) && targets entry.2 nbs l) table.

(** ** Well-formed worlds *)

(** Every handle of a neighbor map points to a router of the store. *)
Definition allocated (w : World) (nbs : JSMap Loc) : Prop :=
  Forall (fun entry => is_Some (routers w !! entry.2)) nbs.

(** No dangling handle anywhere: what JavaScript references guarantee. *)
Definition closed (w : World) : Prop :=
  Forall (fun this => allocated w (neighbors this)) (routers w).

(** A handle in a neighbor map is allocated and is registered under the
    name of the router it points to ([addNeighbor] uses
    [neighborRouter.name] as the key, and no method writes [name]). *)
Definition handle_ok (w : World) (entry : string * Loc) : Prop :=
  name <$> routers w !! entry.2 = Some entry.1.

Definition handles_ok (w : World) : Prop :=
  Forall (fun this => Forall (handle_ok w) (neighbors this)) (routers w).

(** Both maps of every router have one entry per key. *)
Definition maps_ok (w : World) : Prop :=
  Forall (fun this => NoDup (Map_keys (routingTable this))
                      ∧ NoDup (Map_keys (neighbors this)))
         (routers w).

Definition World_ok (w : World) : Prop := handles_ok w ∧ maps_ok w.

#[global] Instance closed_dec (w : World) : Decision (closed w).
Proof. unfold closed, allocated. apply _. Defined.

#[global] Instance handles_ok_dec (w : World) : Decision (handles_ok w).
Proof. unfold handles_ok, handle_ok. apply _. Defined.

#[global] Instance maps_ok_dec (w : World) : Decision (maps_ok w).
Proof. unfold maps_ok. apply _. Defined.

#[global] Instance World_ok_dec (w : World) : Decision (World_ok w).
Proof. unfold World_ok, handles_ok, maps_ok, handle_ok. apply _. Defined.

(** The calls a driver can make on the public surface of [Router]. *)
Inductive Call :=
| CallNew (nm : string)
| CallAddNeighbor (self neighborRouter : Loc)
| CallUpdate (self : Loc) (networkPrefix nextHop : string) (metric_arg : option Z)
| CallAdvertise (self : Loc)
| CallPacket (self : Loc) (packet : Packet)
| CallPrint (self : Loc).

Definition run_call (c : Call) (w : World) : option World :=
  match c with
  | CallNew nm => Some (Router_new nm w).2
  | CallAddNeighbor self nb => addNeighbor self nb w
  | CallUpdate self p nh m => receiveRoutingUpdate self p nh m w
  | CallAdvertise self => advertiseRoutes self w
  | CallPacket self packet => snd <$> receivePacket self packet w
  | CallPrint self => printRoutingTable self w
  end.

(** Worlds a driver can reach from nothing. *)
Inductive reachable : World → Prop :=
| reachable_empty : reachable empty_world
| reachable_call c w w' :
    reachable w → run_call c w = Some w' → reachable w'.

(** Same routers up to routing tables: names and neighbor maps agree at
    every handle. *)
Definition same_links (w w' : World) : Prop :=
  length (routers w') = length (routers w)
  ∧ ∀ l r, routers w !! l = Some r →
      ∃ r', routers w' !! l = Some r'
            ∧ name r' = name r ∧ neighbors r' = neighbors r.

(** ** Sample worlds *)

(** The three routers of [runSimulation] after the advertisement round,
    with an empty console. *)
Definition converged : World :=
  Eval vm_compute in
  mkWorld (from_option (fun result => routers result.2) [] sim_convergence) [].

(** Two routers that name each other as next hop for the same network: a
    forwarding loop, the router store that [addNeighbor] in both directions
    and one [receiveRoutingUpdate] on each side leave behind. *)
Definition loop_world : World :=
  mkWorld [ mkRouter "A" [("10.0.0.0/24", "B")] [("B", 1%nat)];
            mkRouter "B" [("10.0.0.0/24", "A")] [("A", 0%nat)] ] [].

(** A router registered as its own neighbor, next to a second neighbor. *)
Definition self_world : World :=
  mkWorld [ mkRouter "S" [("10.0.0.0/24", "T"); ("10.0.1.0/24", "S")]
                         [("S", 0%nat); ("T", 1%nat)];
            mkRouter "T" [] [("S", 0%nat)] ] [].

(** A packet for a network nobody has a route to. *)
Definition stray : Packet := Packet_new "192.168.1.10" "172.16.0.9" "ping".

(** ** Further observations *)

(** The neighbor map of the router at a handle. *)
Definition neighbors_at (w : World) (l : Loc) : JSMap Loc :=
  from_option neighbors [] (routers w !! l).

(** What [printRoutingTable] prints for a router: the header, one row per
    entry in insertion order or the empty-table line, the footer. *)
Definition table_lines (this : Router) : list LogLine :=
  TABLE_HEADER (name this)
  :: (if decide (length (routingTable this) = 0%nat) then [TABLE_EMPTY]
      else (fun entry => TABLE_ROW entry.1 entry.2) <$> routingTable this)
  ++ [TABLE_FOOTER].

(** The router that printed the first line, when that line is RECEIVE. *)
Definition receiver (lines : list LogLine) : option string :=
  match lines with
  | RECEIVE self _ _ :: _ => Some self
  | _ => None
  end.

(** The console output of one packet journey: each router prints RECEIVE
    and then either FORWARD naming the router that prints the next RECEIVE,
    or one of the three closing lines, after which nothing follows. *)
Fixpoint journey_shape (lines : list LogLine) : bool :=
  match lines with
  | RECEIVE self _ _ :: second :: rest =>
      match second with
      | FORWARD self' _ nextHop =>
          bool_decide (self' = self)
          && bool_decide (receiver rest = Some nextHop)
          && journey_shape rest
      | DROP_TTL self' | DROP_NOROUTE self' _ | DELIVER self' _ =>
          bool_decide (self' = self)
          && match rest with [] => true | _ => false end
      | _ => false
      end
  | _ => false
  end.

Definition is_FORWARD (line : LogLine) : bool :=
  match line with FORWARD _ _ _ => true | _ => false end.

(** A console line without the addresses of the packet it is about. *)
Definition without_addresses (line : LogLine) : LogLine :=
  match line with
  | RECEIVE self _ _ => RECEIVE self EmptyString EmptyString
  | FORWARD self _ nextHop => FORWARD self EmptyString nextHop
  | DELIVER self _ => DELIVER self EmptyString
  | other => other
  end.

(** The router has a route for the prefix whose next hop is one of its
    registered neighbors: it will forward, not deliver or drop. *)
Definition forwards (prefix : string) (this : Router) : bool :=
  match Map_get prefix (routingTable this) with
  | Some nextHopRouterName => Map_has nextHopRouterName (neighbors this)
  | None => false
  end.

(** Every router of the world forwards the prefix. *)
Definition no_exit (prefix : string) (w : World) : Prop :=
  Forall (fun this => forwards prefix this = true) (routers w).

#[global] Instance no_exit_dec prefix w : Decision (no_exit prefix w).
Proof. unfold no_exit. apply _. Defined.

(** A sequence of driver calls, stopping at the first one that fails. *)
Fixpoint run_calls (calls : list Call) (w : World) : option World :=
  match calls with
  | [] => Some w
  | c :: rest => w' ← run_call c w; run_calls rest w'
  end.

(** The calls of [runSimulation] on the routers, in order. *)
Definition simulation_calls : list Call :=
  [ CallNew "R1"; CallNew "R2"; CallNew "R3";
    CallAddNeighbor 0 1; CallAddNeighbor 1 0; CallAddNeighbor 1 2; CallAddNeighbor 2 1;
    CallUpdate 0 R1_lan "R1" None; CallUpdate 1 R2_lan "R2" None;
    CallUpdate 2 R3_lan "R3" None;
    CallPrint 0; CallPrint 1; CallPrint 2;
    CallAdvertise 0; CallAdvertise 2; CallAdvertise 1;
    CallPrint 0; CallPrint 1; CallPrint 2;
    CallPacket 0 myPacket ].

(** A one-way link: A has registered B, B has not registered A. *)
Definition one_way_world : World :=
  mkWorld [ mkRouter "A" [("10.1.0.0/24", "A")] [("B", 1%nat)];
            mkRouter "B" [] [] ] [].

(** Nothing is ever taken away: the console of [w'] extends that of [w],
    and every router of [w] is still there in [w'] under the same handle and
    name, with at least the routing-table keys and neighbor keys it had. *)
Definition grows (w w' : World) : Prop :=
  (∃ lines, console w' = console w ++ lines)
  ∧ ∀ l r, routers w !! l = Some r →
      ∃ r', routers w' !! l = Some r'
            ∧ name r' = name r
            ∧ Map_keys (routingTable r) ⊆ Map_keys (routingTable r')
            ∧ Map_keys (neighbors r) ⊆ Map_keys (neighbors r').

(** * Properties *)

(** ** Splitting and joining strings *)

Lemma append_nil_l (s : string) : EmptyString +:+ s = s.
Proof. reflexivity. Qed.

Lemma append_cons (c : Ascii.ascii) (s1 s2 : string) :
  String c s1 +:+ s2 = String c (s1 +:+ s2).
Proof. reflexivity. Qed.

Lemma append_assoc (s1 s2 s3 : string) : (s1 +:+ s2) +:+ s3 = s1 +:+ (s2 +:+ s3).
Proof.
  induction s1 as [|c s1 IH]; [done|].
  by rewrite !append_cons, IH.
Qed.

Lemma append_empty_r (s : string) : s +:+ EmptyString = s.
Proof.
  induction s as [|c s IH]; [done|].
  by rewrite append_cons, IH.
Qed.

Ltac str_simpl := rewrite ?append_cons, ?append_nil_l.
Ltac str_norm :=
  repeat (rewrite append_assoc || rewrite append_cons || rewrite append_nil_l).

Section StringFacts.

Import JSString.

Variable sep : Ascii.ascii.

Lemma split_not_nil s : ∃ piece pieces, split sep s = piece :: pieces.
Proof.
  destruct s as [|c s]; simpl; [eauto|].
  destruct (Ascii.eqb c sep); [eauto|].
  destruct (split sep s); eauto.
Qed.

Lemma occurrences_app s1 s2 :
  occurrences sep (s1 +:+ s2) = (occurrences sep s1 + occurrences sep s2)%nat.
Proof.
  induction s1 as [|c s1 IH]; str_simpl; simpl; [done|]. rewrite IH. lia.
Qed.

Lemma split_sep_free s : occurrences sep s = 0%nat → split sep s = [s].
Proof.
  induction s as [|c s IH]; simpl; [done|].
  destruct (Ascii.eqb c sep); [done|].
  intros H. by rewrite IH.
Qed.

(** A separator-free head is the first piece. *)
Lemma split_app_sep a rest :
  occurrences sep a = 0%nat → split sep (a +:+ String sep rest) = a :: split sep rest.
Proof.
  induction a as [|c a IH]; str_simpl; simpl.
  - intros _. by rewrite Ascii.eqb_refl.
  - destruct (Ascii.eqb c sep); [done|].
    intros H. by rewrite IH.
Qed.

Lemma split_pieces_sep_free s :
  Forall (fun piece => occurrences sep piece = 0%nat) (split sep s).
Proof.
  induction s as [|c s IH]; simpl.
  - by constructor.
  - destruct (Ascii.eqb c sep) eqn:E.
    + by constructor.
    + destruct (split sep s) as [|piece pieces]; constructor; simpl.
      * by rewrite E.
      * constructor.
      * rewrite E. by inversion IH.
      * by inversion IH.
Qed.

Lemma split_length s : length (split sep s) = S (occurrences sep s).
Proof.
  induction s as [|c s IH]; simpl; [done|].
  destruct (Ascii.eqb c sep); simpl; [by rewrite IH|].
  destruct (split sep s); simpl in *; lia.
Qed.

(** Joining the pieces with the separator gives the string back. *)
Lemma join_cons piece piece' rest :
  join (String sep EmptyString) (piece :: piece' :: rest)
  = piece +:+ String sep (join (String sep EmptyString) (piece' :: rest)).
Proof. done. Qed.

Lemma join_split s : join (String sep EmptyString) (split sep s) = s.
Proof.
  induction s as [|c s IH]; simpl; [done|].
  destruct (split_not_nil s) as (piece & pieces & E). rewrite E in *.
  destruct (Ascii.eqb_spec c sep) as [->|Hne].
  - rewrite join_cons, IH. by str_simpl.
  - destruct pieces as [|piece' pieces].
    + simpl in *. by subst.
    + rewrite join_cons in *. rewrite <- IH. by str_simpl.
Qed.

End StringFacts.

Lemma digits_dot_free s :
  JSString.all_chars JSString.is_digit s = true → JSString.occurrences dot s = 0%nat.
Proof.
  induction s as [|c s IH]; simpl; [done|].
  intros [Hc Hs]%andb_prop.
  destruct (Ascii.eqb_spec c dot) as [->|_]; [discriminate Hc|].
  by apply IH.
Qed.

Lemma octet_dot_free s : is_octet s = true → JSString.occurrences dot s = 0%nat.
Proof.
  unfold is_octet. intros [[_ H]%andb_prop _]%andb_prop. by apply digits_dot_free.
Qed.

(** The prefix of an address whose first three components contain no dot:
    whatever follows the third dot is cut off. *)
Lemma getNetworkPrefix_three_components a b c rest :
  JSString.occurrences dot a = 0%nat →
  JSString.occurrences dot b = 0%nat →
  JSString.occurrences dot c = 0%nat →
  getNetworkPrefix (dotted_quad a b c rest)
  = a +:+ "." +:+ b +:+ "." +:+ c +:+ ".0/24".
Proof.
  intros Ha Hb Hc. unfold getNetworkPrefix, dotted_quad.
  change "." with (String dot EmptyString). str_simpl.
  rewrite !split_app_sep by done.
  destruct (split_not_nil dot rest) as (piece & pieces & ->).
  simpl. by str_norm.
Qed.

(** C7. Prefix derivation: on a well-formed dotted quad [a.b.c.d] (four
    decimal octets), [getNetworkPrefix] returns the first three octets joined
    by dots followed by [.0/24]; on 192.168.3.15 it returns 192.168.3.0/24.
    The function reads nothing but its argument. *)
Theorem C7_prefix_of_dotted_quad (a b c d : string) :
  is_octet a = true → is_octet b = true → is_octet c = true → is_octet d = true →
  getNetworkPrefix (dotted_quad a b c d) = a +:+ "." +:+ b +:+ "." +:+ c +:+ ".0/24"
  ∧ getNetworkPrefix "192.168.3.15" = "192.168.3.0/24".
Proof.
  intros Ha Hb Hc _. split; [|done].
  apply getNetworkPrefix_three_components; by apply octet_dot_free.
Qed.

Lemma C7_witness :
  getNetworkPrefix (dotted_quad "10" "0" "255" "7") = "10.0.255.0/24"
  ∧ getNetworkPrefix "192.168.3.15" = "192.168.3.0/24".
Proof. apply (C7_prefix_of_dotted_quad "10" "0" "255" "7"); reflexivity. Defined.

(** C10. Totality of prefix derivation on arbitrary strings:
    [getNetworkPrefix] is defined on every string; its result is the first
    (at most three) dot-separated pieces of the input rejoined with dots,
    followed by [.0/24].  Equivalently the result is [kept ++ ".0/24"] where
    [kept] is the part of the input before its third dot, or the whole input
    when it has fewer than three dots. *)
Theorem C10_prefix_total (ip : string) :
  let pieces := JSString.split dot ip in
  JSString.join "." pieces = ip
  ∧ Forall (fun piece => JSString.occurrences dot piece = 0%nat) pieces
  ∧ (1 ≤ length (take 3 pieces) ≤ 3)%nat
  ∧ ∃ kept rest,
      getNetworkPrefix ip = kept +:+ ".0/24"
      ∧ kept = JSString.join "." (take 3 pieces)
      ∧ ip = kept +:+ rest
      ∧ (JSString.occurrences dot kept ≤ 2)%nat
      ∧ (rest = EmptyString
         ∨ JSString.occurrences dot kept = 2%nat ∧ ∃ rest', rest = String dot rest').
Proof.
  intros pieces. unfold getNetworkPrefix. fold pieces.
  assert (Hjoin : JSString.join "." pieces = ip) by apply join_split.
  assert (Hfree : Forall (fun piece => JSString.occurrences dot piece = 0%nat) pieces)
    by apply split_pieces_sep_free.
  assert (Hlen : length pieces = S (JSString.occurrences dot ip))
    by apply split_length.
  clearbody pieces.
  split; [done|]. split; [done|].
  split; [rewrite length_take; lia|].
  exists (JSString.join "." (take 3 pieces)).
  destruct pieces as [|a [|b [|c [|d more]]]]; simpl in Hlen; try lia.
  - exists EmptyString. rewrite append_empty_r. simpl take. rewrite Hjoin.
    repeat split; try done; [lia|by left].
  - exists EmptyString. rewrite append_empty_r. simpl take. rewrite Hjoin.
    repeat split; try done; [lia|by left].
  - exists EmptyString. rewrite append_empty_r. simpl take. rewrite Hjoin.
    repeat split; try done; [lia|by left].
  - exists (String dot (JSString.join "." (d :: more))).
    change (take 3 (a :: b :: c :: d :: more)) with [a; b; c].
    inversion Hfree as [|? ? Ha Hfree1]; subst.
    inversion Hfree1 as [|? ? Hb Hfree2]; subst.
    inversion Hfree2 as [|? ? Hc _]; subst.
    assert (Hocc : JSString.occurrences dot (JSString.join "." [a; b; c]) = 2%nat).
    { simpl. rewrite !occurrences_app. str_simpl. simpl.
      rewrite Ha, Hb, Hc. done. }
    repeat split; try done.
    + change "." with (String dot EmptyString).
      rewrite !join_cons. simpl. by str_norm.
    + lia.
    + right. eauto.
Qed.

(** ** Insertion-ordered maps *)

Section MapFacts.

Context {V : Type}.
Implicit Types (m : JSMap V) (k : string) (v : V).

Lemma Map_get_set_eq k v m : Map_get k (Map_set k v m) = Some v.
Proof.
  induction m as [|[k' v'] m IH]; csimpl.
  - by rewrite decide_True.
  - destruct (decide (k' = k)) as [->|Hne]; csimpl.
    + by rewrite decide_True.
    + by rewrite decide_False.
Qed.

Lemma Map_get_set_ne k k' v m : k ≠ k' → Map_get k' (Map_set k v m) = Map_get k' m.
Proof.
  intros Hne. induction m as [|[k0 v0] m IH]; csimpl.
  - by rewrite decide_False.
  - destruct (decide (k0 = k)) as [->|Hne0]; csimpl.
    + by rewrite !decide_False.
    + by rewrite IH.
Qed.

(** Writing the same key twice keeps the second value only. *)
Lemma Map_set_set k v1 v2 m : Map_set k v2 (Map_set k v1 m) = Map_set k v2 m.
Proof.
  induction m as [|[k0 v0] m IH]; csimpl.
  - by rewrite decide_True.
  - destruct (decide (k0 = k)) as [->|Hne0]; csimpl.
    + by rewrite decide_True.
    + by rewrite decide_False, IH.
Qed.

Lemma Map_get_None k m : Map_get k m = None ↔ k ∉ Map_keys m.
Proof.
  unfold Map_keys. induction m as [|[k0 v0] m IH]; csimpl.
  - split; [intros _; apply not_elem_of_nil | done].
  - rewrite not_elem_of_cons. destruct (decide (k0 = k)) as [->|Hne0].
    + split; [done | by intros [? _]].
    + rewrite IH. split; [by split | by intros [_ ?]].
Qed.

Lemma Map_get_Some_elem k v m : Map_get k m = Some v → (k, v) ∈ m.
Proof.
  induction m as [|[k0 v0] m IH]; csimpl; [done|].
  destruct (decide (k0 = k)) as [->|Hne0].
  - intros [= ->]. apply elem_of_cons. by left.
  - intros H. apply elem_of_cons. right. by apply IH.
Qed.

(** With one entry per key, membership and lookup agree. *)
Lemma Map_get_elem_NoDup k v m :
  NoDup (Map_keys m) → (k, v) ∈ m → Map_get k m = Some v.
Proof.
  unfold Map_keys. induction m as [|[k0 v0] m IH]; csimpl.
  - intros _ H. by apply elem_of_nil in H.
  - intros [Hnotin Hnd]%NoDup_cons [[= -> ->]|Hin]%elem_of_cons.
    + by rewrite decide_True.
    + rewrite decide_False; [by apply IH|].
      intros ->. apply Hnotin. apply list_elem_of_fmap. by exists (k, v).
Qed.

Lemma Map_keys_set_present k v m :
  k ∈ Map_keys m → Map_keys (Map_set k v m) = Map_keys m.
Proof.
  unfold Map_keys. induction m as [|[k0 v0] m IH]; csimpl.
  - intros H. by apply elem_of_nil in H.
  - destruct (decide (k0 = k)) as [->|Hne0]; csimpl; [done|].
    intros [->|Hin]%elem_of_cons; [done|]. by rewrite IH.
Qed.

Lemma Map_set_absent k v m : k ∉ Map_keys m → Map_set k v m = m ++ [(k, v)].
Proof.
  unfold Map_keys. induction m as [|[k0 v0] m IH]; csimpl; [done|].
  intros [Hne Hnotin]%not_elem_of_cons.
  rewrite decide_False by done. by rewrite IH.
Qed.

Lemma Map_set_NoDup k v m : NoDup (Map_keys m) → NoDup (Map_keys (Map_set k v m)).
Proof.
  intros Hnd. destruct (decide (k ∈ Map_keys m)) as [Hin|Hnotin].
  - by rewrite Map_keys_set_present.
  - rewrite Map_set_absent by done. unfold Map_keys in *.
    rewrite fmap_app. apply NoDup_app. split; [done|]. split.
    + intros x Hx [->|Hnil%elem_of_nil]%elem_of_cons; done.
    + apply NoDup_singleton.
Qed.

Lemma Map_set_elem k v k' v' m :
  (k', v') ∈ Map_set k v m → (k', v') = (k, v) ∨ (k', v') ∈ m.
Proof.
  induction m as [|[k0 v0] m IH]; csimpl.
  - intros [->|Hnil%elem_of_nil]%elem_of_cons; [by left | done].
  - destruct (decide (k0 = k)) as [->|Hne0].
    + intros [->|Hin]%elem_of_cons; [by left|].
      right. apply elem_of_cons. by right.
    + intros [->|Hin]%elem_of_cons.
      * right. apply elem_of_cons. by left.
      * destruct (IH Hin) as [?|?]; [by left|].
        right. apply elem_of_cons. by right.
Qed.

(** One record per key: two entries with the same key carry the same value. *)
Lemma Map_one_value k v1 v2 m :
  NoDup (Map_keys m) → (k, v1) ∈ m → (k, v2) ∈ m → v1 = v2.
Proof.
  intros Hnd H1 H2.
  apply (Map_get_elem_NoDup _ _ _ Hnd) in H1, H2. congruence.
Qed.

(** A write to a key found among the first [S i] entries leaves everything
    after position [i] where it was. *)
Lemma Map_set_drop k v m i :
  k ∈ Map_keys (take (S i) m) → drop (S i) (Map_set k v m) = drop (S i) m.
Proof.
  unfold Map_keys. revert i. induction m as [|[k0 v0] m IH]; intros i; csimpl.
  - intros H. by apply elem_of_nil in H.
  - destruct (decide (k0 = k)) as [->|Hne0]; csimpl; [done|].
    intros [->|Hin]%elem_of_cons; [done|].
    destruct i as [|i]; csimpl in *.
    + by apply elem_of_nil in Hin.
    + by apply IH.
Qed.

Lemma Map_lookup_key_take (m : JSMap V) i k v :
  m !! i = Some (k, v) → k ∈ Map_keys (take (S i) m).
Proof.
  intros H. unfold Map_keys. apply list_elem_of_fmap. exists (k, v). split; [done|].
  apply list_elem_of_lookup. exists i. rewrite lookup_take_lt by lia. done.
Qed.

Lemma Map_lookup_key (m : JSMap V) i k v : m !! i = Some (k, v) → k ∈ Map_keys m.
Proof.
  intros H. unfold Map_keys. apply list_elem_of_fmap. exists (k, v). split; [done|].
  apply list_elem_of_lookup. eauto.
Qed.

End MapFacts.

(** ** Worlds *)

(** Settles a decidable proposition on a closed term by evaluation. *)
Ltac decide_by_compute := refine (bool_decide_unpack _ _); vm_compute; exact I.

Lemma routers_log line w : routers (log line w) = routers w.
Proof. done. Qed.

Lemma console_log line w : console (log line w) = console w ++ [line].
Proof. done. Qed.

Lemma table_at_lookup w l this : routers w !! l = Some this → table_at w l = routingTable this.
Proof. unfold table_at. by intros ->. Qed.

Lemma name_at_lookup w l this : routers w !! l = Some this → name_at w l = name this.
Proof. unfold name_at. by intros ->. Qed.

Lemma lookup_store_eq w l r this :
  routers w !! l = Some this → routers (store l r w) !! l = Some r.
Proof.
  intros H. simpl. apply list_lookup_insert_eq. by apply lookup_lt_Some in H.
Qed.

Lemma lookup_store_ne w l l' r : l ≠ l' → routers (store l r w) !! l' = routers w !! l'.
Proof. intros H. simpl. by apply list_lookup_insert_ne. Qed.

Lemma handles_ok_lookup w l this n l' :
  handles_ok w → routers w !! l = Some this → (n, l') ∈ neighbors this →
  ∃ nb, routers w !! l' = Some nb ∧ name nb = n.
Proof.
  intros Hok Hl Hin.
  pose proof (proj1 (Forall_lookup _ _) Hok _ _ Hl) as Hthis.
  pose proof (proj1 (Forall_forall _ _) Hthis _ Hin) as Hentry.
  unfold handle_ok in Hentry. simpl in Hentry.
  destruct (routers w !! l') as [nb|]; [|done].
  exists nb. split; [done|]. by injection Hentry.
Qed.

Lemma closed_lookup w l this n l' :
  closed w → routers w !! l = Some this → (n, l') ∈ neighbors this →
  is_Some (routers w !! l').
Proof.
  intros Hok Hl Hin.
  pose proof (proj1 (Forall_lookup _ _) Hok _ _ Hl) as Hthis.
  exact (proj1 (Forall_forall _ _) Hthis _ Hin).
Qed.

Lemma handles_ok_closed w : handles_ok w → closed w.
Proof.
  intros Hok. apply Forall_lookup. intros l this Hl.
  apply Forall_forall. intros [n l'] Hin.
  destruct (handles_ok_lookup _ _ _ _ _ Hok Hl Hin) as (nb & Hnb & _).
  simpl. eauto.
Qed.

Lemma maps_ok_lookup w l this :
  maps_ok w → routers w !! l = Some this →
  NoDup (Map_keys (routingTable this)) ∧ NoDup (Map_keys (neighbors this)).
Proof. intros Hok Hl. exact (proj1 (Forall_lookup _ _) Hok _ _ Hl). Qed.

(** *** Routers that differ in their routing tables only *)

Lemma same_links_refl w : same_links w w.
Proof. split; [done|]. intros l r Hl. by exists r. Qed.

Lemma same_links_trans w1 w2 w3 :
  same_links w1 w2 → same_links w2 w3 → same_links w1 w3.
Proof.
  intros [Hlen12 H12] [Hlen23 H23]. split; [congruence|].
  intros l r Hl.
  destruct (H12 _ _ Hl) as (r2 & Hl2 & Hn2 & Hnb2).
  destruct (H23 _ _ Hl2) as (r3 & Hl3 & Hn3 & Hnb3).
  exists r3. split; [done|]. split; congruence.
Qed.

Lemma same_links_sym w w' : same_links w w' → same_links w' w.
Proof.
  intros [Hlen H]. split; [done|]. intros l r' Hl'.
  assert (Hlt : (l < length (routers w))%nat)
    by (rewrite <- Hlen; by apply lookup_lt_Some in Hl').
  destruct (lookup_lt_is_Some_2 _ _ Hlt) as [r Hl].
  destruct (H _ _ Hl) as (r'' & Hl'' & Hn & Hnb).
  exists r. split; [done|]. split; congruence.
Qed.

Lemma same_links_log line w : same_links w (log line w).
Proof. split; [done|]. intros l r Hl. by exists r. Qed.

Lemma same_links_store w l this table :
  routers w !! l = Some this →
  same_links w (store l (mkRouter (name this) table (neighbors this)) w).
Proof.
  intros Hl. split; [simpl; apply length_insert|].
  intros l' r Hl'. destruct (decide (l = l')) as [<-|Hne].
  - eexists. split; [by eapply lookup_store_eq|]. by simplify_eq.
  - exists r. by rewrite lookup_store_ne.
Qed.

Lemma same_links_name_at w w' l : same_links w w' → name_at w' l = name_at w l.
Proof.
  intros Hsame. unfold name_at.
  destruct (routers w !! l) as [r|] eqn:Hl.
  - destruct (proj2 Hsame _ _ Hl) as (r' & -> & Hn & _). done.
  - destruct (routers w' !! l) as [r'|] eqn:Hl'; [|done].
    destruct (proj2 (same_links_sym _ _ Hsame) _ _ Hl') as (r & Hr & _). congruence.
Qed.

Lemma handles_ok_same_links w w' : same_links w w' → handles_ok w → handles_ok w'.
Proof.
  intros Hsame Hok. apply Forall_lookup. intros l r' Hl'.
  destruct (proj2 (same_links_sym _ _ Hsame) _ _ Hl') as (r & Hl & Hn & Hnb).
  apply Forall_forall. intros [n l'] Hin. rewrite <- Hnb in Hin.
  destruct (handles_ok_lookup _ _ _ _ _ Hok Hl Hin) as (nb & Hnbl & Hname).
  destruct (proj2 Hsame _ _ Hnbl) as (nb' & Hnbl' & Hn' & _).
  unfold handle_ok. simpl. rewrite Hnbl'. simpl. congruence.
Qed.

Lemma World_ok_routers w w' : routers w' = routers w → World_ok w → World_ok w'.
Proof.
  destruct w as [rs c], w' as [rs' c']. simpl. intros ->.
  unfold World_ok, handles_ok, maps_ok, handle_ok. done.
Qed.

Lemma maps_ok_store w l this table :
  routers w !! l = Some this →
  NoDup (Map_keys table) →
  maps_ok w → maps_ok (store l (mkRouter (name this) table (neighbors this)) w).
Proof.
  intros Hl Hnd Hok. unfold maps_ok. simpl.
  apply Forall_insert; [done|]. simpl. split; [done|].
  by apply (maps_ok_lookup _ _ _ Hok Hl).
Qed.

(** ** [receiveRoutingUpdate] *)

Lemma receiveRoutingUpdate_Some w self this p nh m :
  routers w !! self = Some this →
  receiveRoutingUpdate self p nh m w
  = Some (store self (updated this p nh) (log (UPDATE (name this) p nh) w)).
Proof. intros H. unfold receiveRoutingUpdate. rewrite H. done. Qed.

Lemma receiveRoutingUpdate_inv w w' self p nh m :
  receiveRoutingUpdate self p nh m w = Some w' →
  ∃ this, routers w !! self = Some this
          ∧ w' = store self (updated this p nh) (log (UPDATE (name this) p nh) w).
Proof.
  unfold receiveRoutingUpdate. destruct (routers w !! self) as [this|]; [|done].
  simpl. intros [= <-]. by exists this.
Qed.

Lemma receiveRoutingUpdate_same_links w w' self p nh m :
  receiveRoutingUpdate self p nh m w = Some w' → same_links w w'.
Proof.
  intros (this & Hl & ->)%receiveRoutingUpdate_inv.
  eapply same_links_trans; [apply (same_links_log (UPDATE (name this) p nh))|].
  by apply same_links_store.
Qed.

Lemma receiveRoutingUpdate_World_ok w w' self p nh m :
  receiveRoutingUpdate self p nh m w = Some w' → World_ok w → World_ok w'.
Proof.
  intros Hrun [Hh Hm]. split.
  - eapply handles_ok_same_links; [|done]. by eapply receiveRoutingUpdate_same_links.
  - apply receiveRoutingUpdate_inv in Hrun as (this & Hl & ->).
    apply maps_ok_store; [done| |done].
    apply Map_set_NoDup. by apply (maps_ok_lookup _ _ _ Hm Hl).
Qed.

Lemma receiveRoutingUpdate_table w w' self p nh m l :
  receiveRoutingUpdate self p nh m w = Some w' →
  table_at w' l = if decide (l = self) then Map_set p nh (table_at w l) else table_at w l.
Proof.
  intros (this & Hl & ->)%receiveRoutingUpdate_inv. unfold table_at at 1.
  destruct (decide (l = self)) as [->|Hne].
  - erewrite lookup_store_eq by done. simpl. by rewrite (table_at_lookup _ _ _ Hl).
  - rewrite lookup_store_ne by done. done.
Qed.

Lemma receiveRoutingUpdate_console w w' self p nh m :
  receiveRoutingUpdate self p nh m w = Some w' →
  console w' = console w ++ [UPDATE (name_at w self) p nh].
Proof.
  intros (this & Hl & ->)%receiveRoutingUpdate_inv.
  by rewrite (name_at_lookup _ _ _ Hl).
Qed.

(** ** [receivePacket] *)

(** The body of [receivePacket], one invocation deep. *)
Lemma receivePacket_body self packet w :
  receivePacket self packet w =
  match routers w !! self with
  | None => None
  | Some this =>
      let w1 := log (RECEIVE (name this) (sourceIp packet) (destinationIp packet)) w in
      let packet' := decrement_ttl packet in
      if decide (ttl packet' <= 0) then Some (packet', log (DROP_TTL (name this)) w1)
      else
        let destinationNetwork := getNetworkPrefix (destinationIp packet') in
        match Map_get destinationNetwork (routingTable this) with
        | None => Some (packet', log (DROP_NOROUTE (name this) destinationNetwork) w1)
        | Some nextHopRouterName =>
            match Map_get nextHopRouterName (neighbors this) with
            | None => Some (packet', log (DELIVER (name this) (destinationIp packet')) w1)
            | Some nextHop =>
                match routers w !! nextHop with
                | None => None
                | Some nextHopRouter =>
                    receivePacket nextHop packet'
                      (log (FORWARD (name this) (destinationIp packet') (name nextHopRouter)) w1)
                end
            end
        end
  end.
Proof.
  rewrite receivePacket_equation_1 at 1.
  unfold receivePacket_unfold_clause_1.
  destruct (routers w !! self) as [this|]; simpl; [|done].
  unfold receivePacket_unfold_clause_1_clause_2.
  destruct (Z_le_gt_dec (ttl packet - 1) 0) as [Hle|Hgt]; simpl.
  { by rewrite decide_True. }
  rewrite decide_False by lia.
  unfold receivePacket_unfold_clause_1_clause_2_clause_2.
  destruct (Map_get _ (routingTable this)) as [nextHopRouterName|]; simpl; [|done].
  unfold receivePacket_unfold_clause_1_clause_2_clause_2_clause_2.
  destruct (Map_get _ (neighbors this)) as [nextHop|]; simpl; [|done].
  unfold receivePacket_unfold_clause_1_clause_2_clause_2_clause_2_clause_2.
  by destruct (routers w !! nextHop).
Qed.

Lemma invocations_app l1 l2 :
  invocations (l1 ++ l2) = (invocations l1 + invocations l2)%nat.
Proof. unfold invocations. by rewrite filter_app, length_app. Qed.

(** What one call of [receivePacket] can do, whatever the topology: it
    appends lines to the console, leaves the router store alone, and changes
    nothing in the packet but its ttl, which drops by one per invocation. *)
Lemma receivePacket_journey self packet w packet' w' :
  receivePacket self packet w = Some (packet', w') →
  ∃ lines,
    console w' = console w ++ lines
    ∧ routers w' = routers w
    ∧ packet' = mkPacket (sourceIp packet) (destinationIp packet) (content packet)
                         (ttl packet - Z.of_nat (invocations lines))
    ∧ (1 ≤ invocations lines)%nat
    ∧ Z.of_nat (invocations lines) <= Z.max 1 (ttl packet)
    ∧ (existsb is_DROP_TTL lines = true ↔ ttl packet' <= 0).
Proof.
  remember (Z.to_nat (ttl packet)) as n eqn:Hn.
  revert self packet w packet' w' Hn.
  induction n as [n IH] using lt_wf_ind. intros self packet w packet' w' Hn.
  rewrite receivePacket_body.
  destruct (routers w !! self) as [this|]; [|done]. simpl.
  set (line := RECEIVE (name this) (sourceIp packet) (destinationIp packet)).
  destruct (decide (ttl packet - 1 <= 0)) as [Hle|Hgt].
  { intros [= <- <-]. exists [line; DROP_TTL (name this)].
    change (invocations [_; _]) with 1%nat. simpl.
    rewrite <- app_assoc. split; [done|]. split; [done|].
    split; [done|]. split; [done|]. split; [lia|]. done. }
  destruct (Map_get _ (routingTable this)) as [nextHopRouterName|].
  2: { intros [= <- <-]. eexists [line; DROP_NOROUTE (name this) _].
    change (invocations [_; _]) with 1%nat. simpl.
    rewrite <- app_assoc. split; [done|]. split; [done|].
    split; [done|]. split; [done|]. split; [lia|]. split; [done|lia]. }
  destruct (Map_get _ (neighbors this)) as [nextHop|].
  2: { intros [= <- <-]. eexists [line; DELIVER (name this) _].
    change (invocations [_; _]) with 1%nat. simpl.
    rewrite <- app_assoc. split; [done|]. split; [done|].
    split; [done|]. split; [done|]. split; [lia|]. split; [done|lia]. }
  destruct (routers w !! nextHop) as [nextHopRouter|]; [|done].
  intros Hrun.
  eapply (IH (Z.to_nat (ttl (decrement_ttl packet)))) in Hrun;
    [|simpl; lia|done].
  destruct Hrun as (lines & Hc & Hr & Hp & H1 & Hmax & Hdrop).
  exists ([line; FORWARD (name this) (destinationIp packet) (name nextHopRouter)]
          ++ lines).
  rewrite invocations_app. change (invocations [_; _]) with 1%nat.
  simpl in Hc, Hr, Hp, Hmax.
  split; [rewrite Hc, <- !app_assoc; done|]. split; [done|].
  split; [rewrite Hp; f_equal; lia|]. split; [lia|]. split; [lia|].
  rewrite existsb_app. done.
Qed.

Lemma closed_log line w : closed w → closed (log line w).
Proof. done. Qed.

(** On a world without dangling handles a call on an allocated router
    always returns. *)
Lemma receivePacket_total self packet w :
  closed w → is_Some (routers w !! self) →
  ∃ packet' w', receivePacket self packet w = Some (packet', w').
Proof.
  remember (Z.to_nat (ttl packet)) as n eqn:Hn.
  revert self packet w Hn.
  induction n as [n IH] using lt_wf_ind. intros self packet w Hn Hok [this Hl].
  rewrite receivePacket_body, Hl. simpl.
  destruct (decide (ttl packet - 1 <= 0)) as [Hle|Hgt]; [eauto|].
  destruct (Map_get _ (routingTable this)) as [nextHopRouterName|]; [|eauto].
  destruct (Map_get _ (neighbors this)) as [nextHop|] eqn:Hnb; [|eauto].
  apply Map_get_Some_elem in Hnb.
  destruct (closed_lookup _ _ _ _ _ Hok Hl Hnb) as (nextHopRouter & Hl').
  rewrite Hl'.
  apply (IH (Z.to_nat (ttl (decrement_ttl packet)))); simpl; [lia|done|done|eauto].
Qed.

(** C2. TTL accounting: a new packet has ttl 32; a call of [receivePacket]
    on an allocated router of a world without dangling handles returns, and
    the ttl it leaves in the packet is the initial ttl minus the number of
    [receivePacket] invocations of the journey (at least one), so a new
    packet that went through N routers carries 32 - N; the TTL drop line is
    printed exactly when the ttl left by the last decrement is 0 or below,
    and the first invocation drops the packet for TTL expiry exactly when
    its own decrement reaches 0 or below. *)
Theorem C2_ttl_accounting (w : World) (self : Loc) (this : Router) (packet : Packet) :
  closed w →
  routers w !! self = Some this →
  (∀ src dst body, ttl (Packet_new src dst body) = 32)
  ∧ ∃ packet' w' lines,
      receivePacket self packet w = Some (packet', w')
      ∧ console w' = console w ++ lines
      ∧ (1 ≤ invocations lines)%nat
      ∧ ttl packet' = ttl packet - Z.of_nat (invocations lines)
      ∧ (ttl packet = 32 → ttl packet' = 32 - Z.of_nat (invocations lines))
      ∧ (existsb is_DROP_TTL lines = true ↔ ttl packet' <= 0)
      ∧ (lines = [RECEIVE (name this) (sourceIp packet) (destinationIp packet);
                  DROP_TTL (name this)]
         ↔ ttl packet - 1 <= 0).
Proof.
  intros Hok Hl. split; [done|].
  destruct (receivePacket_total self packet w Hok) as (packet' & w' & Hrun); [eauto|].
  destruct (receivePacket_journey _ _ _ _ _ Hrun)
    as (lines & Hc & Hr & Hp & H1 & Hmax & Hdrop).
  exists packet', w', lines.
  assert (Httl : ttl packet' = ttl packet - Z.of_nat (invocations lines))
    by (by rewrite Hp).
  split; [done|]. split; [done|]. split; [done|]. split; [done|].
  split; [intros H32; by rewrite Httl, H32|]. split; [done|].
  split.
  - intros ->. apply proj1 in Hdrop. specialize (Hdrop eq_refl).
    change (invocations [_; _]) with 1%nat in Httl. lia.
  - intros Hle. rewrite receivePacket_body, Hl in Hrun. simpl in Hrun.
    rewrite decide_True in Hrun by done. injection Hrun as <- <-.
    simpl in Hc. rewrite <- app_assoc in Hc. by apply app_inv_head in Hc.
Qed.

Lemma C2_witness :
  ∃ packet' w' lines,
    receivePacket 0 myPacket converged = Some (packet', w')
    ∧ console w' = console converged ++ lines
    ∧ ttl packet' = 32 - Z.of_nat (invocations lines)
    ∧ (existsb is_DROP_TTL lines = true ↔ ttl packet' <= 0).
Proof.
  assert (Hok : closed converged) by decide_by_compute.
  destruct (C2_ttl_accounting converged 0 _ myPacket Hok eq_refl)
    as (_ & packet' & w' & lines & Hrun & Hc & _ & _ & H32 & Hdrop & _).
  exists packet', w', lines. exact (conj Hrun (conj Hc (conj (H32 eq_refl) Hdrop))).
Defined.

(** C3. Forwarding decision: when the ttl is still strictly positive after
    the decrement, (a) without a table entry for the destination's prefix
    the call returns after the RECEIVE and no-route lines, forwarding
    nothing; (b) with an entry whose next hop is a registered neighbor, the
    call is the neighbor's [receivePacket] on the same, decremented packet,
    after the RECEIVE and FORWARD lines; (c) with an entry whose next hop is
    no registered neighbor the call returns after the RECEIVE and DELIVER
    lines, with no further [receivePacket]. *)
Theorem C3_forwarding_decision (w : World) (self : Loc) (this : Router)
    (packet : Packet) :
  routers w !! self = Some this →
  0 < ttl packet - 1 →
  let packet' := decrement_ttl packet in
  let w1 := log (RECEIVE (name this) (sourceIp packet) (destinationIp packet)) w in
  let destinationNetwork := getNetworkPrefix (destinationIp packet) in
  (Map_has destinationNetwork (routingTable this) = false →
   receivePacket self packet w
   = Some (packet', log (DROP_NOROUTE (name this) destinationNetwork) w1))
  ∧ (∀ nextHopRouterName nextHop nextHopRouter,
       Map_get destinationNetwork (routingTable this) = Some nextHopRouterName →
       Map_get nextHopRouterName (neighbors this) = Some nextHop →
       routers w !! nextHop = Some nextHopRouter →
       receivePacket self packet w
       = receivePacket nextHop packet'
           (log (FORWARD (name this) (destinationIp packet) (name nextHopRouter)) w1))
  ∧ (∀ nextHopRouterName,
       Map_get destinationNetwork (routingTable this) = Some nextHopRouterName →
       Map_has nextHopRouterName (neighbors this) = false →
       receivePacket self packet w
       = Some (packet', log (DELIVER (name this) (destinationIp packet)) w1)).
Proof.
  intros Hl Hpos packet' w1 destinationNetwork.
  rewrite receivePacket_body, Hl. simpl.
  rewrite decide_False by lia. fold destinationNetwork.
  unfold Map_has. split; [|split].
  - by destruct (Map_get destinationNetwork (routingTable this)).
  - intros nextHopRouterName nextHop nextHopRouter -> -> ->. done.
  - intros nextHopRouterName ->.
    by destruct (Map_get nextHopRouterName (neighbors this)).
Qed.

Lemma C3_witness :
  receivePacket 0 stray converged
  = Some (decrement_ttl stray,
          log (DROP_NOROUTE "R1" "172.16.0.0/24")
            (log (RECEIVE "R1" "192.168.1.10" "172.16.0.9") converged))
  ∧ receivePacket 0 myPacket converged
    = receivePacket 1 (decrement_ttl myPacket)
        (log (FORWARD "R1" "192.168.3.15" "R2")
          (log (RECEIVE "R1" "192.168.1.10" "192.168.3.15") converged))
  ∧ receivePacket 2 myPacket converged
    = Some (decrement_ttl myPacket,
            log (DELIVER "R3" "192.168.3.15")
              (log (RECEIVE "R3" "192.168.1.10" "192.168.3.15") converged)).
Proof.
  assert (Hpos : 0 < 32 - 1) by lia.
  destruct (C3_forwarding_decision converged 0 _ stray eq_refl Hpos) as (Hdrop & _ & _).
  destruct (C3_forwarding_decision converged 0 _ myPacket eq_refl Hpos) as (_ & Hforward & _).
  destruct (C3_forwarding_decision converged 2 _ myPacket eq_refl Hpos) as (_ & _ & Hdeliver).
  split; [|split].
  - exact (Hdrop eq_refl).
  - exact (Hforward "R2" 1%nat _ eq_refl eq_refl eq_refl).
  - exact (Hdeliver "R3" eq_refl eq_refl).
Defined.

(** C6. Termination bound: whatever the topology and the routing tables,
    cycles included, a call of [receivePacket] with a packet whose ttl is at
    most 32 (every packet the constructor makes) on an allocated router
    returns after at most 32 [receivePacket] invocations; in general after
    at most [max 1 ttl] of them. *)
Theorem C6_termination_bound (w : World) (self : Loc) (this : Router)
    (packet : Packet) :
  closed w →
  routers w !! self = Some this →
  ttl packet <= 32 →
  ∃ packet' w' lines,
    receivePacket self packet w = Some (packet', w')
    ∧ console w' = console w ++ lines
    ∧ Z.of_nat (invocations lines) <= Z.max 1 (ttl packet)
    ∧ (invocations lines ≤ 32)%nat.
Proof.
  intros Hok Hl H32.
  destruct (receivePacket_total self packet w Hok) as (packet' & w' & Hrun); [eauto|].
  destruct (receivePacket_journey _ _ _ _ _ Hrun)
    as (lines & Hc & _ & _ & _ & Hmax & _).
  exists packet', w', lines. split; [done|]. split; [done|]. split; [done|]. lia.
Qed.

Lemma C6_witness :
  ∃ packet' w' lines,
    receivePacket 0 (Packet_new "10.0.9.1" "10.0.0.7" "around") loop_world
    = Some (packet', w')
    ∧ console w' = console loop_world ++ lines
    ∧ (invocations lines ≤ 32)%nat.
Proof.
  assert (Hok : closed loop_world) by decide_by_compute.
  assert (H32 : ttl (Packet_new "10.0.9.1" "10.0.0.7" "around") <= 32) by (simpl; lia).
  destruct (C6_termination_bound loop_world 0 _ _ Hok eq_refl H32)
    as (packet' & w' & lines & Hrun & Hc & _ & Hbound).
  exists packet', w', lines. exact (conj Hrun (conj Hc Hbound)).
Defined.

(** The bound of 32 invocations is reached: in the two-router loop a new
    packet is handed back and forth until the 32nd invocation drops it with
    ttl 0. *)
Example loop_world_uses_all_32 :
  ∃ w', receivePacket 0 (Packet_new "10.0.9.1" "10.0.0.7" "around") loop_world
        = Some (mkPacket "10.0.9.1" "10.0.0.7" "around" 0, w')
        ∧ invocations (console w') = 32%nat
        ∧ last (console w') = Some (DROP_TTL "B").
Proof. eexists. split; [vm_compute; reflexivity|]. split; vm_compute; reflexivity. Qed.

(** C8. Silent drops, router state untouched: on a world without dangling
    handles a call of [receivePacket] on an allocated router always returns
    (there is no error result to return); it leaves the whole router store,
    routing tables and neighbor maps included, exactly as it was, and the
    packet differs from the one passed in by its ttl only.  In both drop
    cases the call returns right after printing its two lines. *)
Theorem C8_silent_drop (w : World) (self : Loc) (this : Router) (packet : Packet) :
  closed w →
  routers w !! self = Some this →
  let w1 := log (RECEIVE (name this) (sourceIp packet) (destinationIp packet)) w in
  (∃ packet' w' lines,
     receivePacket self packet w = Some (packet', w')
     ∧ routers w' = routers w
     ∧ console w' = console w ++ lines
     ∧ sourceIp packet' = sourceIp packet
     ∧ destinationIp packet' = destinationIp packet
     ∧ content packet' = content packet)
  ∧ (ttl packet - 1 <= 0 →
     receivePacket self packet w
     = Some (decrement_ttl packet, log (DROP_TTL (name this)) w1))
  ∧ (0 < ttl packet - 1 →
     Map_has (getNetworkPrefix (destinationIp packet)) (routingTable this) = false →
     receivePacket self packet w
     = Some (decrement_ttl packet,
             log (DROP_NOROUTE (name this) (getNetworkPrefix (destinationIp packet))) w1)).
Proof.
  intros Hok Hl w1. split; [|split].
  - destruct (receivePacket_total self packet w Hok) as (packet' & w' & Hrun); [eauto|].
    destruct (receivePacket_journey _ _ _ _ _ Hrun)
      as (lines & Hc & Hr & -> & _).
    eexists; exists w', lines. split; [exact Hrun|]. done.
  - intros Hle. rewrite receivePacket_body, Hl. simpl. by rewrite decide_True.
  - intros Hpos. unfold Map_has. rewrite receivePacket_body, Hl. simpl.
    rewrite decide_False by lia.
    by destruct (Map_get (getNetworkPrefix (destinationIp packet)) (routingTable this)).
Qed.

Lemma C8_witness :
  ∃ packet' w',
    receivePacket 0 stray converged = Some (packet', w')
    ∧ routers w' = routers converged.
Proof.
  assert (Hok : closed converged) by decide_by_compute.
  destruct (C8_silent_drop converged 0 _ stray Hok eq_refl)
    as ((packet' & w' & lines & Hrun & Hr & _) & _ & _).
  exists packet', w'. exact (conj Hrun Hr).
Defined.

(** ** [advertiseRoutes] *)

Lemma entry_updates_cons w selfName p nh n l nbs :
  entry_updates w selfName p nh ((n, l) :: nbs)
  = (if decide (n ≠ nh) then [UPDATE (name_at w l) p selfName] else [])
    ++ entry_updates w selfName p nh nbs.
Proof. done. Qed.

Lemma split_horizon_updates_cons w selfName p nh table nbs :
  split_horizon_updates w selfName ((p, nh) :: table) nbs
  = entry_updates w selfName p nh nbs ++ split_horizon_updates w selfName table nbs.
Proof. done. Qed.

Lemma entry_updates_same_links w w' selfName p nh nbs :
  same_links w w' →
  entry_updates w' selfName p nh nbs = entry_updates w selfName p nh nbs.
Proof.
  intros Hsame. induction nbs as [|[n l] nbs IH]; [done|].
  rewrite !entry_updates_cons, IH. by rewrite (same_links_name_at _ _ _ Hsame).
Qed.

Lemma split_horizon_updates_same_links w w' selfName table nbs :
  same_links w w' →
  split_horizon_updates w' selfName table nbs
  = split_horizon_updates w selfName table nbs.
Proof.
  intros Hsame. induction table as [|[p nh] table IH]; [done|].
  rewrite !split_horizon_updates_cons, IH.
  by rewrite (entry_updates_same_links _ _ _ _ _ _ Hsame).
Qed.

(** The inner loop: the lines it prints, and what it can have done to any
    routing table (nothing, or the one write of the advertised prefix). *)
Lemma advertise_entry_spec selfName p nh nbs w w' :
  advertise_entry selfName p nh nbs w = Some w' →
  same_links w w'
  ∧ console w' = console w ++ entry_updates w selfName p nh nbs
  ∧ ∀ l, table_at w' l = table_at w l
         ∨ table_at w' l = Map_set p selfName (table_at w l).
Proof.
  revert w. induction nbs as [|[n l0] nbs IH]; intros w.
  - intros [= <-]. split; [apply same_links_refl|].
    split; [by rewrite app_nil_r | by left].
  - rewrite entry_updates_cons. cbn [advertise_entry].
    destruct (decide (n ≠ nh)) as [Hne|Heq].
    + destruct (receiveRoutingUpdate l0 p selfName None w) as [w1|] eqn:Hupd; [|done].
      simpl. intros Hrest. destruct (IH _ Hrest) as (Hsame & Hc & Htab).
      pose proof (receiveRoutingUpdate_same_links _ _ _ _ _ _ Hupd) as Hsame1.
      split; [by eapply same_links_trans|]. split.
      * rewrite Hc, (receiveRoutingUpdate_console _ _ _ _ _ _ Hupd).
        rewrite (entry_updates_same_links _ _ _ _ _ _ Hsame1).
        by rewrite <- app_assoc.
      * intros l. specialize (Htab l).
        rewrite (receiveRoutingUpdate_table _ _ _ _ _ _ l Hupd) in Htab.
        destruct (decide (l = l0)) as [->|_].
        -- rewrite Map_set_set in Htab. right. by destruct Htab.
        -- done.
    + intros Hrest. destruct (IH _ Hrest) as (Hsame & Hc & Htab). done.
Qed.

Lemma allocated_same_links w w' nbs : same_links w w' → allocated w nbs → allocated w' nbs.
Proof.
  intros Hsame Halloc. eapply Forall_impl; [exact Halloc|].
  intros [n l] [r Hr]. simpl in *.
  destruct (proj2 Hsame _ _ Hr) as (r' & Hr' & _). eauto.
Qed.

Lemma handles_ok_allocated w l this :
  handles_ok w → routers w !! l = Some this → allocated w (neighbors this).
Proof.
  intros Hok Hl. apply Forall_forall. intros [n l'] Hin.
  destruct (handles_ok_lookup _ _ _ _ _ Hok Hl Hin) as (nb & Hnb & _).
  simpl. eauto.
Qed.

Lemma advertise_entry_total selfName p nh nbs w :
  allocated w nbs → is_Some (advertise_entry selfName p nh nbs w).
Proof.
  revert w. induction nbs as [|[n l0] nbs IH]; intros w Halloc; simpl; [eauto|].
  apply Forall_cons in Halloc as [[r Hr] Halloc]. simpl in Hr.
  destruct (decide (n ≠ nh)); [|by apply IH].
  rewrite (receiveRoutingUpdate_Some _ _ _ _ _ _ Hr). simpl.
  apply IH. eapply allocated_same_links; [|done].
  eapply (receiveRoutingUpdate_same_links _ _ l0 p selfName None).
  by apply receiveRoutingUpdate_Some.
Qed.

(** After one entry has been offered to the neighbors, the router's own
    table has the same keys in the same positions, and the entries the
    iterator has not reached yet are untouched. *)
Lemma own_table_after_entry (T T' : JSMap string) i p nh v :
  T !! i = Some (p, nh) →
  T' = T ∨ T' = Map_set p v T →
  Map_keys T' = Map_keys T ∧ drop (S i) T' = drop (S i) T.
Proof.
  intros Hi [->| ->]; [done|]. split.
  - apply Map_keys_set_present. by eapply Map_lookup_key.
  - apply Map_set_drop. by eapply Map_lookup_key_take.
Qed.

Lemma Map_keys_length {V} (m m' : JSMap V) :
  Map_keys m' = Map_keys m → length m' = length m.
Proof.
  unfold Map_keys. intros H. by rewrite <- (length_fmap fst m'), H, length_fmap.
Qed.

(** The outer loop from position [i] on, with a bound that covers the rest
    of the table: it returns, it prints the split-horizon lines of the
    entries from [i] on as they were when the loop got there, and it
    leaves the keys of the router's own table in place. *)
Lemma advertise_loop_spec bound i self w this :
  routers w !! self = Some this →
  allocated w (neighbors this) →
  (length (routingTable this) - i ≤ bound)%nat →
  ∃ w',
    advertise_loop bound i self w = Some w'
    ∧ same_links w w'
    ∧ console w'
      = console w
        ++ split_horizon_updates w (name this) (drop i (routingTable this)) (neighbors this)
    ∧ Map_keys (table_at w' self) = Map_keys (routingTable this).
Proof.
  revert i w this. induction bound as [|bound IH]; intros i w this Hl Halloc Hbound.
  - exists w. rewrite drop_ge by lia. simpl.
    split; [done|]. split; [apply same_links_refl|].
    split; [by rewrite app_nil_r | by rewrite (table_at_lookup _ _ _ Hl)].
  - cbn [advertise_loop]. rewrite Hl. simpl.
    destruct (routingTable this !! i) as [[p nh]|] eqn:Hi.
    2: { exists w. apply lookup_ge_None in Hi. rewrite drop_ge by lia.
         split; [done|]. split; [apply same_links_refl|].
         split; [by rewrite app_nil_r | by rewrite (table_at_lookup _ _ _ Hl)]. }
    destruct (advertise_entry_total (name this) p nh _ w Halloc) as [w1 Hentry].
    rewrite Hentry. simpl.
    destruct (advertise_entry_spec _ _ _ _ _ _ Hentry) as (Hsame1 & Hc1 & Htab1).
    destruct (proj2 Hsame1 _ _ Hl) as (this1 & Hl1 & Hname1 & Hnbs1).
    specialize (Htab1 self).
    rewrite (table_at_lookup _ _ _ Hl1), (table_at_lookup _ _ _ Hl) in Htab1.
    destruct (own_table_after_entry _ _ _ _ _ _ Hi Htab1) as [Hkeys Hdrop].
    destruct (IH (S i) w1 this1 Hl1) as (w' & Hloop & Hsame & Hc & Hkeys').
    { rewrite Hnbs1. by eapply allocated_same_links. }
    { rewrite (Map_keys_length _ _ Hkeys). lia. }
    exists w'. split; [done|]. split; [by eapply same_links_trans|]. split.
    + rewrite Hc, Hc1, Hname1, Hnbs1, Hdrop.
      rewrite (split_horizon_updates_same_links _ _ _ _ _ Hsame1).
      rewrite (drop_S _ _ _ Hi), split_horizon_updates_cons.
      by rewrite <- app_assoc.
    + by rewrite Hkeys', Hkeys.
Qed.

(** The bound of [advertiseRoutes] never cuts the iteration short: any
    larger bound gives the same result, so the loop ends because the
    iterator has run off the end of the table. *)
Lemma advertise_loop_exhausted b1 b2 i self w this :
  routers w !! self = Some this →
  (length (routingTable this) - i ≤ b1)%nat →
  (length (routingTable this) - i ≤ b2)%nat →
  advertise_loop b1 i self w = advertise_loop b2 i self w.
Proof.
  revert b2 i w this.
  induction b1 as [|b1 IH]; intros [|b2] i w this Hl H1 H2; [done|..];
    cbn [advertise_loop]; rewrite ?Hl; simpl.
  - by rewrite (proj2 (lookup_ge_None _ _)) by lia.
  - by rewrite (proj2 (lookup_ge_None _ _)) by lia.
  - destruct (routingTable this !! i) as [[p nh]|] eqn:Hi; [|done].
    destruct (advertise_entry _ _ _ _ w) as [w1|] eqn:Hentry; [|done]. simpl.
    destruct (advertise_entry_spec _ _ _ _ _ _ Hentry) as (Hsame1 & _ & Htab1).
    destruct (proj2 Hsame1 _ _ Hl) as (this1 & Hl1 & _).
    specialize (Htab1 self).
    rewrite (table_at_lookup _ _ _ Hl1), (table_at_lookup _ _ _ Hl) in Htab1.
    destruct (own_table_after_entry _ _ _ _ _ _ Hi Htab1) as [Hkeys _].
    apply (IH b2 (S i) w1 this1 Hl1); rewrite (Map_keys_length _ _ Hkeys); lia.
Qed.

(** *** Effect of an advertisement on the routing tables *)

Lemma Map_get_set k k' (v : string) (m : JSMap string) :
  Map_get k' (Map_set k v m) = if decide (k' = k) then Some v else Map_get k' m.
Proof.
  destruct (decide (k' = k)) as [->|Hne].
  - apply Map_get_set_eq.
  - by apply Map_get_set_ne.
Qed.

Lemma advertise_entry_tables selfName p nh nbs w w' :
  advertise_entry selfName p nh nbs w = Some w' →
  ∀ l q,
    Map_get q (table_at w' l)
    = if bool_decide (q = p) && targets nh nbs l then Some selfName
      else Map_get q (table_at w l).
Proof.
  revert w. induction nbs as [|[n l0] nbs IH]; intros w.
  - intros [= <-] l q. unfold targets. simpl. by rewrite andb_false_r.
  - cbn [advertise_entry]. unfold targets in *. cbn [existsb fst snd].
    destruct (decide (n ≠ nh)) as [Hne|Heq].
    + destruct (receiveRoutingUpdate l0 p selfName None w) as [w1|] eqn:Hupd; [|done].
      simpl. intros Hrest l q. rewrite (IH _ Hrest).
      rewrite (receiveRoutingUpdate_table _ _ _ _ _ _ l Hupd).
      destruct (decide (l = l0)) as [->|Hl].
      * rewrite (bool_decide_eq_true_2 (l0 = l0 ∧ n ≠ nh)) by done. simpl.
        rewrite andb_true_r, Map_get_set.
        destruct (decide (q = p)) as [->|Hq].
        -- rewrite bool_decide_eq_true_2 by done. simpl.
           by destruct (existsb _ nbs).
        -- rewrite bool_decide_eq_false_2 by done. done.
      * rewrite (bool_decide_eq_false_2 (l0 = l ∧ n ≠ nh)) by (intros [? _]; done).
        done.
    + intros Hrest l q. rewrite (IH _ Hrest).
      rewrite (bool_decide_eq_false_2 (l0 = l ∧ n ≠ nh)) by (intros [_ ?]; done).
      done.
Qed.

Lemma advertise_loop_tables bound i self w w' this :
  routers w !! self = Some this →
  advertise_loop bound i self w = Some w' →
  (length (routingTable this) - i ≤ bound)%nat →
  ∀ l q,
    Map_get q (table_at w' l)
    = if advertised (drop i (routingTable this)) (neighbors this) q l
      then Some (name this) else Map_get q (table_at w l).
Proof.
  revert i w this. induction bound as [|bound IH]; intros i w this Hl Hloop Hbound l q.
  - injection Hloop as <-. by rewrite drop_ge by lia.
  - cbn [advertise_loop] in Hloop. rewrite Hl in Hloop. simpl in Hloop.
    destruct (routingTable this !! i) as [[p nh]|] eqn:Hi.
    2: { injection Hloop as <-. apply lookup_ge_None in Hi. by rewrite drop_ge by lia. }
    destruct (advertise_entry _ _ _ _ w) as [w1|] eqn:Hentry; [|done].
    simpl in Hloop.
    destruct (advertise_entry_spec _ _ _ _ _ _ Hentry) as (Hsame1 & _ & Htab1).
    destruct (proj2 Hsame1 _ _ Hl) as (this1 & Hl1 & Hname1 & Hnbs1).
    specialize (Htab1 self).
    rewrite (table_at_lookup _ _ _ Hl1), (table_at_lookup _ _ _ Hl) in Htab1.
    destruct (own_table_after_entry _ _ _ _ _ _ Hi Htab1) as [Hkeys Hdrop].
    rewrite (IH (S i) w1 this1 Hl1 Hloop); [|rewrite (Map_keys_length _ _ Hkeys); lia].
    rewrite Hname1, Hnbs1, Hdrop, (drop_S _ _ _ Hi).
    rewrite (advertise_entry_tables _ _ _ _ _ _ Hentry).
    unfold advertised. cbn [existsb fst snd].
    rewrite (bool_decide_ext (p = q) (q = p)) by done.
    destruct (existsb _ (drop (S i) (routingTable this))); [by rewrite orb_true_r|].
    by rewrite orb_false_r.
Qed.

Lemma targets_true nh nbs l :
  targets nh nbs l = true ↔ ∃ n, (n, l) ∈ nbs ∧ n ≠ nh.
Proof.
  unfold targets. rewrite existsb_exists. split.
  - intros ([n l'] & Hin & Hdec). apply bool_decide_eq_true in Hdec as [Hl Hn].
    simpl in *. subst l'. exists n. split; [by apply list_elem_of_In|done].
  - intros (n & Hin & Hn). exists (n, l). split; [by apply list_elem_of_In|].
    by apply bool_decide_eq_true.
Qed.

Lemma advertised_true table nbs q l :
  advertised table nbs q l = true
  ↔ ∃ nh n, (q, nh) ∈ table ∧ (n, l) ∈ nbs ∧ n ≠ nh.
Proof.
  unfold advertised. rewrite existsb_exists. split.
  - intros ([p nh] & Hin & [Hp Ht]%andb_prop).
    apply bool_decide_eq_true in Hp. simpl in *. subst p.
    apply targets_true in Ht as (n & Hn & Hne).
    exists nh, n. split; [by apply list_elem_of_In|done].
  - intros (nh & n & Hin & Hn & Hne). exists (q, nh).
    split; [by apply list_elem_of_In|]. apply andb_true_intro. split.
    + by apply bool_decide_eq_true.
    + apply targets_true. eauto.
Qed.

Lemma elem_of_entry_updates w selfName p nh nbs line :
  line ∈ entry_updates w selfName p nh nbs
  ↔ ∃ n l, (n, l) ∈ nbs ∧ n ≠ nh ∧ line = UPDATE (name_at w l) p selfName.
Proof.
  unfold entry_updates. rewrite list_elem_of_bind. split.
  - intros ([n l] & Hline & Hin). exists n, l.
    destruct (decide (n ≠ nh)) as [Hne|_].
    + apply list_elem_of_singleton in Hline. done.
    + by apply elem_of_nil in Hline.
  - intros (n & l & Hin & Hne & ->). exists (n, l). split; [|done].
    rewrite decide_True by done. by apply list_elem_of_singleton.
Qed.

Lemma elem_of_split_horizon_updates w selfName table nbs line :
  line ∈ split_horizon_updates w selfName table nbs
  ↔ ∃ p nh n l,
      (p, nh) ∈ table ∧ (n, l) ∈ nbs ∧ n ≠ nh
      ∧ line = UPDATE (name_at w l) p selfName.
Proof.
  unfold split_horizon_updates. rewrite list_elem_of_bind. split.
  - intros ([p nh] & Hline & Hin).
    apply elem_of_entry_updates in Hline as (n & l & Hn & Hne & ->).
    by exists p, nh, n, l.
  - intros (p & nh & n & l & Hin & Hn & Hne & ->). exists (p, nh). split; [|done].
    apply elem_of_entry_updates. by exists n, l.
Qed.

Lemma handles_ok_name_at w l this n l' :
  handles_ok w → routers w !! l = Some this → (n, l') ∈ neighbors this →
  name_at w l' = n.
Proof.
  intros Hok Hl Hin.
  destruct (handles_ok_lookup _ _ _ _ _ Hok Hl Hin) as (nb & Hnb & <-).
  by apply name_at_lookup.
Qed.

(** C1. Split horizon: on a well-formed world [advertiseRoutes()] of an
    allocated router returns; after its ADVERTISE line it prints exactly the
    UPDATE lines of the calls [neighbor.receiveRoutingUpdate(prefix, name)],
    one for each table entry and each neighbor registered under a key other
    than the entry's next hop, in iteration order, and only routing tables
    change.  So for every entry (prefix, nextHop): every neighbor whose key
    differs from nextHop receives the update and ends up with
    [routingTable[prefix] = name]; the neighbor registered as nextHop
    receives no update for that prefix, and its entry for the prefix is what
    it was before the call. *)
Theorem C1_split_horizon (w : World) (self : Loc) (this : Router) :
  World_ok w →
  routers w !! self = Some this →
  ∃ w' updates,
    advertiseRoutes self w = Some w'
    ∧ console w' = console w ++ ADVERTISE (name this) :: updates
    ∧ updates
      = split_horizon_updates w (name this) (routingTable this) (neighbors this)
    ∧ same_links w w'
    ∧ (∀ prefix nextHop neighborName neighbor,
         (prefix, nextHop) ∈ routingTable this →
         (neighborName, neighbor) ∈ neighbors this →
         neighborName ≠ nextHop →
         UPDATE neighborName prefix (name this) ∈ updates
         ∧ Map_get prefix (table_at w' neighbor) = Some (name this))
    ∧ (∀ prefix nextHop neighbor,
         (prefix, nextHop) ∈ routingTable this →
         (nextHop, neighbor) ∈ neighbors this →
         (∀ advertiser, UPDATE nextHop prefix advertiser ∉ updates)
         ∧ Map_get prefix (table_at w' neighbor)
           = Map_get prefix (table_at w neighbor)).
Proof.
  intros [Hh Hm] Hl.
  destruct (maps_ok_lookup _ _ _ Hm Hl) as [HndT HndN].
  set (w0 := log (ADVERTISE (name this)) w).
  destruct (advertise_loop_spec (length (routingTable this)) 0 self w0 this)
    as (w' & Hloop & Hsame & Hc & _); [done| |lia|].
  { by apply (handles_ok_allocated w self). }
  assert (Htables := advertise_loop_tables _ _ self w0 _ this Hl Hloop ltac:(lia)).
  rewrite drop_0 in Hc, Htables.
  exists w', (split_horizon_updates w (name this) (routingTable this) (neighbors this)).
  split; [unfold advertiseRoutes; by rewrite Hl|].
  split; [rewrite Hc; simpl; by rewrite <- app_assoc|].
  split; [done|]. split; [done|]. split.
  - intros prefix nextHop neighborName neighbor HinT HinN Hne. split.
    + apply elem_of_split_horizon_updates.
      exists prefix, nextHop, neighborName, neighbor.
      by rewrite (handles_ok_name_at _ _ _ _ _ Hh Hl HinN).
    + rewrite Htables.
      rewrite (proj2 (advertised_true _ _ _ _)); [done|].
      by exists nextHop, neighborName.
  - intros prefix nextHop neighbor HinT HinN. split.
    + intros advertiser
        (p & nh & n & l & HinT' & HinN' & Hne & Heq)%elem_of_split_horizon_updates.
      rewrite (handles_ok_name_at _ _ _ _ _ Hh Hl HinN') in Heq.
      injection Heq as -> -> ->.
      by rewrite (Map_one_value _ _ _ _ HndT HinT HinT') in Hne.
    + rewrite Htables.
      destruct (advertised _ _ prefix neighbor) eqn:Hadv; [|done].
      apply advertised_true in Hadv as (nh & n & HinT' & HinN' & Hne).
      rewrite (Map_one_value _ _ _ _ HndT HinT' HinT) in Hne.
      rewrite <- (handles_ok_name_at _ _ _ _ _ Hh Hl HinN') in Hne.
      by rewrite (handles_ok_name_at _ _ _ _ _ Hh Hl HinN) in Hne.
Qed.

Lemma C1_witness :
  ∃ w',
    advertiseRoutes 1 converged = Some w'
    ∧ console w'
      = [ADVERTISE "R2";
         UPDATE "R1" "192.168.2.0/24" "R2"; UPDATE "R3" "192.168.2.0/24" "R2";
         UPDATE "R3" "192.168.1.0/24" "R2"; UPDATE "R1" "192.168.3.0/24" "R2"].
Proof.
  assert (Hok : World_ok converged) by decide_by_compute.
  destruct (C1_split_horizon converged 1 _ Hok eq_refl)
    as (w' & updates & Hrun & Hc & -> & _).
  exists w'. exact (conj Hrun Hc).
Defined.

(** A router registered as its own neighbor: while it iterates over its
    table it overwrites its own route to 10.0.0.0/24 (learned from T) with
    itself, and still withholds that prefix from T. *)
Example advertise_to_itself :
  ∃ w',
    advertiseRoutes 0 self_world = Some w'
    ∧ console w'
      = [ADVERTISE "S"; UPDATE "S" "10.0.0.0/24" "S"; UPDATE "T" "10.0.1.0/24" "S"]
    ∧ table_at w' 0 = [("10.0.0.0/24", "S"); ("10.0.1.0/24", "S")]
    ∧ table_at w' 1 = [("10.0.1.0/24", "S")].
Proof. eexists. split; [vm_compute; reflexivity|]. repeat split. Qed.

(** ** The end-to-end run *)

(** C4. End-to-end scenario: in the chain R1 - R2 - R3 seeded with one /24
    each, before the advertisement round R1 has no route to 192.168.3.0/24
    and R3 none to 192.168.1.0/24; after [advertiseRoutes] on R1, then R3,
    then R2, R1 reaches 192.168.3.0/24 via R2 and R3 reaches 192.168.1.0/24
    via R2; the packet from 192.168.1.10 to 192.168.3.15 handed to R1 is
    received by R1, forwarded to R2, received by R2, forwarded to R3,
    received by R3 and delivered there, and is left with ttl 29. *)
Theorem C4_end_to_end :
  ∃ R1 R2 R3 w_seeded w_converged w_end,
    sim_network = Some (R1, R2, R3, w_seeded)
    ∧ sim_convergence = Some (R1, R2, R3, w_converged)
    ∧ (name_at w_converged R1, name_at w_converged R2, name_at w_converged R3)
      = ("R1", "R2", "R3")
    ∧ Map_get R3_lan (table_at w_seeded R1) = None
    ∧ Map_get R1_lan (table_at w_seeded R3) = None
    ∧ Map_get R3_lan (table_at w_converged R1) = Some "R2"
    ∧ Map_get R1_lan (table_at w_converged R3) = Some "R2"
    ∧ receivePacket R1 myPacket w_converged
      = Some (mkPacket "192.168.1.10" "192.168.3.15" "Hello World!" 29,
              mkWorld (routers w_converged)
                (console w_converged
                 ++ [RECEIVE "R1" "192.168.1.10" "192.168.3.15";
                     FORWARD "R1" "192.168.3.15" "R2";
                     RECEIVE "R2" "192.168.1.10" "192.168.3.15";
                     FORWARD "R2" "192.168.3.15" "R3";
                     RECEIVE "R3" "192.168.1.10" "192.168.3.15";
                     DELIVER "R3" "192.168.3.15"]))
    ∧ runSimulation
      = Some (mkPacket "192.168.1.10" "192.168.3.15" "Hello World!" 29, w_end)
    ∧ routers w_end = routers w_converged
    ∧ invocations (console w_end) = 3%nat.
Proof.
  do 6 eexists.
  split; [vm_compute; reflexivity|].
  split; [vm_compute; reflexivity|].
  split; [vm_compute; reflexivity|].
  split; [vm_compute; reflexivity|].
  split; [vm_compute; reflexivity|].
  split; [vm_compute; reflexivity|].
  split; [vm_compute; reflexivity|].
  split; [vm_compute; reflexivity|].
  split; [vm_compute; reflexivity|].
  split; vm_compute; reflexivity.
Qed.

(** ** Every world a driver can reach is well formed *)

Lemma handle_ok_names w w' entry :
  (∀ l, name <$> routers w' !! l = name <$> routers w !! l) →
  handle_ok w entry → handle_ok w' entry.
Proof. unfold handle_ok. intros Hnames. by rewrite Hnames. Qed.

Lemma Router_new_World_ok nm w : World_ok w → World_ok (Router_new nm w).2.
Proof.
  intros [Hh Hm]. split.
  - unfold handles_ok in *. simpl. apply Forall_app. split.
    + eapply Forall_impl; [exact Hh|]. intros r Hr.
      eapply Forall_impl; [exact Hr|]. intros [n l]. unfold handle_ok. simpl.
      destruct (routers w !! l) as [nb|] eqn:Hl; [|done].
      by rewrite (lookup_app_l_Some _ _ _ _ Hl).
    + by repeat constructor.
  - unfold maps_ok in *. simpl. apply Forall_app. split; [done|].
    repeat constructor.
Qed.

Lemma addNeighbor_World_ok self neighborRouter w w' :
  addNeighbor self neighborRouter w = Some w' → World_ok w → World_ok w'.
Proof.
  unfold addNeighbor.
  destruct (routers w !! self) as [this|] eqn:Hl; [|done]. simpl.
  destruct (routers w !! neighborRouter) as [nb|] eqn:Hnb; [|done]. simpl.
  intros [= <-] [Hh Hm].
  destruct (maps_ok_lookup _ _ _ Hm Hl) as [HndT HndN].
  set (this' := mkRouter _ _ _).
  assert (Hnames : ∀ l, name <$> <[self:=this']> (routers w) !! l
                        = name <$> routers w !! l).
  { intros l. destruct (decide (self = l)) as [<-|Hne].
    - rewrite list_lookup_insert_eq by (by apply lookup_lt_Some in Hl). by rewrite Hl.
    - by rewrite list_lookup_insert_ne. }
  split.
  - unfold handles_ok in *. simpl. apply Forall_insert.
    + eapply Forall_impl; [exact Hh|]. intros r Hr.
      eapply Forall_impl; [exact Hr|]. intros entry. by apply handle_ok_names.
    + apply Forall_forall. intros [n l] Hin. apply (handle_ok_names w); [done|].
      apply Map_set_elem in Hin as [[= -> ->]|Hin].
      * unfold handle_ok. simpl. by rewrite Hnb.
      * pose proof (proj1 (Forall_lookup _ _) Hh _ _ Hl) as Hthis.
        by apply (proj1 (Forall_forall _ _) Hthis).
  - unfold maps_ok in *. simpl. apply Forall_insert; [done|]. simpl.
    split; [done|]. by apply Map_set_NoDup.
Qed.

Lemma advertise_entry_World_ok selfName p nh nbs w w' :
  advertise_entry selfName p nh nbs w = Some w' → World_ok w → World_ok w'.
Proof.
  revert w. induction nbs as [|[n l0] nbs IH]; intros w; cbn [advertise_entry].
  - by intros [= <-].
  - destruct (decide (n ≠ nh)); [|by apply IH].
    destruct (receiveRoutingUpdate l0 p selfName None w) as [w1|] eqn:Hupd; [|done].
    simpl. intros Hrest Hok. apply (IH _ Hrest).
    by eapply receiveRoutingUpdate_World_ok.
Qed.

Lemma advertise_loop_World_ok bound i self w w' :
  advertise_loop bound i self w = Some w' → World_ok w → World_ok w'.
Proof.
  revert i w. induction bound as [|bound IH]; intros i w; cbn [advertise_loop].
  - by intros [= <-].
  - destruct (routers w !! self) as [this|]; [|done]. simpl.
    destruct (routingTable this !! i) as [[p nh]|]; [|by intros [= <-]].
    destruct (advertise_entry _ _ _ _ w) as [w1|] eqn:Hentry; [|done]. simpl.
    intros Hloop Hok. apply (IH _ _ Hloop). by eapply advertise_entry_World_ok.
Qed.

Lemma advertiseRoutes_World_ok self w w' :
  advertiseRoutes self w = Some w' → World_ok w → World_ok w'.
Proof.
  unfold advertiseRoutes. destruct (routers w !! self) as [this|]; [|done]. simpl.
  intros Hloop Hok. apply (advertise_loop_World_ok _ _ _ _ _ Hloop).
  by apply (World_ok_routers w).
Qed.

Lemma routers_print_rows (table : JSMap string) w :
  routers (foldl (fun acc entry => log (TABLE_ROW entry.1 entry.2) acc) w table)
  = routers w.
Proof.
  revert w. induction table as [|entry table IH]; intros w; simpl; [done|].
  by rewrite IH.
Qed.

Lemma printRoutingTable_routers self w w' :
  printRoutingTable self w = Some w' → routers w' = routers w.
Proof.
  unfold printRoutingTable. destruct (routers w !! self) as [this|]; [|done]. simpl.
  intros [= <-]. simpl. destruct (decide _); [done|].
  by rewrite routers_print_rows.
Qed.

Lemma run_call_World_ok c w w' : run_call c w = Some w' → World_ok w → World_ok w'.
Proof.
  destruct c as [nm|self nb|self p nh m|self|self packet|self]; simpl.
  - intros [= <-]. apply Router_new_World_ok.
  - apply addNeighbor_World_ok.
  - apply receiveRoutingUpdate_World_ok.
  - apply advertiseRoutes_World_ok.
  - destruct (receivePacket self packet w) as [[packet' w1]|] eqn:Hrun; [|done].
    simpl. intros [= <-]. apply World_ok_routers.
    by destruct (receivePacket_journey _ _ _ _ _ Hrun) as (lines & _ & Hr & _).
  - intros Hprint. apply World_ok_routers. by eapply printRoutingTable_routers.
Qed.

(** Well-formedness is an invariant of the public surface. *)
Lemma reachable_World_ok w : reachable w → World_ok w.
Proof.
  induction 1 as [|c w w' _ IH Hcall].
  - split; constructor.
  - by eapply run_call_World_ok.
Qed.

(** C5. Overwrite semantics: [receiveRoutingUpdate(prefix, nextHop)] on an
    allocated router always succeeds and sets [routingTable[prefix]] to
    [nextHop] whatever was recorded before, without reading any metric: the
    new table is the old one with that single write; other prefixes, other
    routers, names and neighbor maps are untouched; the table still has one
    entry per key, so exactly one next hop is recorded for the prefix; of
    two successive updates of the same prefix the second one wins; and in
    every world a driver can reach, no table records two next hops for one
    prefix. *)
Theorem C5_overwrite (w : World) (self : Loc) (this : Router)
    (networkPrefix nextHop : string) (metric_arg : option Z) :
  maps_ok w →
  routers w !! self = Some this →
  ∃ w',
    receiveRoutingUpdate self networkPrefix nextHop metric_arg w = Some w'
    ∧ table_at w' self = Map_set networkPrefix nextHop (routingTable this)
    ∧ Map_get networkPrefix (table_at w' self) = Some nextHop
    ∧ (∀ p, p ≠ networkPrefix →
         Map_get p (table_at w' self) = Map_get p (routingTable this))
    ∧ (∀ l, l ≠ self → routers w' !! l = routers w !! l)
    ∧ same_links w w'
    ∧ maps_ok w'
    ∧ (∀ v, (networkPrefix, v) ∈ table_at w' self → v = nextHop)
    ∧ (∀ nextHop2 metric_arg2, ∃ w'',
         receiveRoutingUpdate self networkPrefix nextHop2 metric_arg2 w' = Some w''
         ∧ Map_get networkPrefix (table_at w'' self) = Some nextHop2
         ∧ table_at w'' self = Map_set networkPrefix nextHop2 (routingTable this))
    ∧ (∀ w0 l r p v1 v2,
         reachable w0 → routers w0 !! l = Some r →
         (p, v1) ∈ routingTable r → (p, v2) ∈ routingTable r → v1 = v2).
Proof.
  intros Hm Hl.
  pose proof (receiveRoutingUpdate_Some w self this networkPrefix nextHop metric_arg Hl)
    as Hrun.
  eexists. split; [exact Hrun|].
  set (w' := store self _ _) in *.
  assert (Hl' : routers w' !! self = Some (updated this networkPrefix nextHop))
    by (by eapply lookup_store_eq).
  assert (Htab : table_at w' self = Map_set networkPrefix nextHop (routingTable this))
    by (by rewrite (table_at_lookup _ _ _ Hl')).
  assert (Hm' : maps_ok w').
  { apply maps_ok_store; [done| |done].
    apply Map_set_NoDup. by apply (maps_ok_lookup _ _ _ Hm Hl). }
  rewrite Htab.
  split; [done|]. split; [apply Map_get_set_eq|].
  split; [intros p Hp; by apply Map_get_set_ne|].
  split; [intros l Hne; unfold w'; by rewrite lookup_store_ne|].
  split; [by eapply receiveRoutingUpdate_same_links|].
  split; [done|]. split; [|split].
  - intros v Hv. rewrite <- Htab in Hv.
    assert (Hnd : NoDup (Map_keys (table_at w' self))).
    { rewrite (table_at_lookup _ _ _ Hl'). by apply (maps_ok_lookup _ _ _ Hm' Hl'). }
    apply (Map_get_elem_NoDup _ _ _ Hnd) in Hv.
    rewrite Htab, Map_get_set_eq in Hv. congruence.
  - intros nextHop2 metric_arg2.
    pose proof (receiveRoutingUpdate_Some w' self _ networkPrefix nextHop2 metric_arg2 Hl')
      as Hrun2.
    eexists. split; [exact Hrun2|].
    erewrite table_at_lookup by (by eapply lookup_store_eq).
    simpl. rewrite Map_set_set. split; [apply Map_get_set_eq | done].
  - intros w0 l r p v1 v2 [_ Hm0]%reachable_World_ok Hl0.
    apply Map_one_value. by apply (maps_ok_lookup _ _ _ Hm0 Hl0).
Qed.

Lemma C5_witness :
  ∃ w',
    receiveRoutingUpdate 0 "192.168.3.0/24" "R9" None converged = Some w'
    ∧ table_at w' 0
      = [("192.168.1.0/24", "R1"); ("192.168.2.0/24", "R2"); ("192.168.3.0/24", "R9")]
    ∧ maps_ok w'.
Proof.
  assert (Hok : maps_ok converged) by decide_by_compute.
  destruct (C5_overwrite converged 0 _ "192.168.3.0/24" "R9" None Hok eq_refl)
    as (w' & Hrun & Htab & _ & _ & _ & _ & Hok' & _).
  exists w'. exact (conj Hrun (conj Htab Hok')).
Defined.

(** C9. Metric noninterference: two runs of [receiveRoutingUpdate] that
    differ in the metric argument only (any two values, or one omitted)
    return the same result, router store and console included. *)
Theorem C9_metric_noninterference (w : World) (self : Loc)
    (networkPrefix nextHop : string) (metric1 metric2 : option Z) :
  receiveRoutingUpdate self networkPrefix nextHop metric1 w
  = receiveRoutingUpdate self networkPrefix nextHop metric2 w.
Proof. reflexivity. Qed.

(** * Further properties of the code *)

(** ** Prefix derivation *)

Lemma quad_prefix_pieces a b c :
  JSString.occurrences dot a = 0%nat →
  JSString.occurrences dot b = 0%nat →
  JSString.occurrences dot c = 0%nat →
  JSString.split dot (a +:+ "." +:+ b +:+ "." +:+ c +:+ ".0/24")
  = [a; b; c; "0/24"].
Proof.
  intros Ha Hb Hc. change "." with (String dot EmptyString).
  change ".0/24" with (String dot "0/24"). str_simpl.
  by rewrite !split_app_sep by done.
Qed.

(** X1. Two addresses whose first three components contain no dot get the
    same prefix exactly when those three components agree; what follows the
    third dot plays no part. *)
Theorem X1_same_prefix_iff (a b c d a' b' c' d' : string) :
  JSString.occurrences dot a = 0%nat →
  JSString.occurrences dot b = 0%nat →
  JSString.occurrences dot c = 0%nat →
  JSString.occurrences dot a' = 0%nat →
  JSString.occurrences dot b' = 0%nat →
  JSString.occurrences dot c' = 0%nat →
  getNetworkPrefix (dotted_quad a b c d) = getNetworkPrefix (dotted_quad a' b' c' d')
  ↔ a = a' ∧ b = b' ∧ c = c'.
Proof.
  intros Ha Hb Hc Ha' Hb' Hc'.
  rewrite !getNetworkPrefix_three_components by done. split.
  - intros Heq. apply (f_equal (JSString.split dot)) in Heq.
    rewrite !quad_prefix_pieces in Heq by done. by injection Heq.
  - by intros (-> & -> & ->).
Qed.

Lemma X1_witness :
  getNetworkPrefix (dotted_quad "192" "168" "3" "15")
  = getNetworkPrefix (dotted_quad "192" "168" "3" "200")
  ↔ "192" = "192" ∧ "168" = "168" ∧ "3" = "3".
Proof.
  apply (X1_same_prefix_iff "192" "168" "3" "15" "192" "168" "3" "200"); reflexivity.
Defined.

(** X2. An input with fewer than three dot-separated components (at most
    two dots, the empty string included) is kept whole: the result is the
    input followed by [.0/24]. *)
Theorem X2_short_input_kept (ip : string) :
  (JSString.occurrences dot ip < 3)%nat →
  getNetworkPrefix ip = ip +:+ ".0/24".
Proof.
  intros Hocc. unfold getNetworkPrefix.
  rewrite take_ge by (rewrite split_length; lia).
  change "." with (String dot EmptyString). by rewrite join_split.
Qed.

Lemma X2_witness : getNetworkPrefix "10.7" = "10.7" +:+ ".0/24".
Proof. apply (X2_short_input_kept "10.7"). vm_compute. lia. Defined.

(** X3. On an input with at least two dots the derivation is idempotent: the
    prefix of a prefix is that prefix. *)
Theorem X3_prefix_idempotent (ip : string) :
  (2 ≤ JSString.occurrences dot ip)%nat →
  getNetworkPrefix (getNetworkPrefix ip) = getNetworkPrefix ip.
Proof.
  intros Hocc.
  assert (Hlen := split_length dot ip).
  assert (Hfree := split_pieces_sep_free dot ip).
  unfold getNetworkPrefix at 2 3.
  destruct (JSString.split dot ip) as [|a [|b [|c rest]]]; simpl in Hlen; try lia.
  inversion Hfree as [|? ? Ha Hfree1]; subst.
  inversion Hfree1 as [|? ? Hb Hfree2]; subst.
  inversion Hfree2 as [|? ? Hc _]; subst.
  change (take 3 (a :: b :: c :: rest)) with [a; b; c].
  change "." with (String dot EmptyString). rewrite !join_cons. simpl JSString.join.
  pose proof (getNetworkPrefix_three_components a b c "0/24" Ha Hb Hc) as Hquad.
  unfold dotted_quad in Hquad. change "." with (String dot EmptyString) in Hquad.
  revert Hquad. str_norm. intros Hquad. exact Hquad.
Qed.

Lemma X3_witness :
  getNetworkPrefix (getNetworkPrefix "192.168.3.15") = getNetworkPrefix "192.168.3.15".
Proof. apply (X3_prefix_idempotent "192.168.3.15"). vm_compute. lia. Defined.

(** ** Construction and wiring *)

Lemma neighbors_at_lookup w l this :
  routers w !! l = Some this → neighbors_at w l = neighbors this.
Proof. unfold neighbors_at. by intros ->. Qed.

(** X4. A new router gets a handle no router had, starts with an empty
    routing table and no neighbors, and leaves the existing routers and the
    console as they were; so it has nothing to advertise, and a packet
    handed to it with more than one hop of ttl left is dropped for lack of a
    route. *)
Theorem X4_new_router_is_isolated (nm : string) (w : World) (packet : Packet) :
  0 < ttl packet - 1 →
  let l := (Router_new nm w).1 in
  let w' := (Router_new nm w).2 in
  routers w !! l = None
  ∧ routers w' !! l = Some (mkRouter nm [] [])
  ∧ (∀ l' r, routers w !! l' = Some r → routers w' !! l' = Some r)
  ∧ console w' = console w
  ∧ advertiseRoutes l w' = Some (log (ADVERTISE nm) w')
  ∧ receivePacket l packet w'
    = Some (decrement_ttl packet,
            log (DROP_NOROUTE nm (getNetworkPrefix (destinationIp packet)))
              (log (RECEIVE nm (sourceIp packet) (destinationIp packet)) w')).
Proof.
  intros Hpos l w'.
  assert (Hnew : routers w' !! l = Some (mkRouter nm [] [])).
  { unfold w', l. simpl. rewrite lookup_app_r by lia. by rewrite Nat.sub_diag. }
  split; [by apply lookup_ge_None|]. split; [done|].
  split; [intros l' r Hl'; unfold w'; simpl; by rewrite (lookup_app_l_Some _ _ _ _ Hl')|].
  split; [done|]. split.
  - unfold advertiseRoutes. by rewrite Hnew.
  - rewrite receivePacket_body, Hnew. simpl. by rewrite decide_False by lia.
Qed.

Lemma X4_witness :
  receivePacket 3 myPacket (Router_new "R4" converged).2
  = Some (decrement_ttl myPacket,
          log (DROP_NOROUTE "R4" "192.168.3.0/24")
            (log (RECEIVE "R4" "192.168.1.10" "192.168.3.15")
               (Router_new "R4" converged).2)).
Proof.
  assert (Hpos : 0 < ttl myPacket - 1) by (vm_compute; reflexivity).
  exact (proj2 (proj2 (proj2 (proj2 (proj2
    (X4_new_router_is_isolated "R4" converged myPacket Hpos)))))).
Defined.

Lemma addNeighbor_Some w self neighborRouter this peer :
  routers w !! self = Some this →
  routers w !! neighborRouter = Some peer →
  addNeighbor self neighborRouter w
  = Some (log (INFO (name this) (name peer))
            (store self
               (mkRouter (name this) (routingTable this)
                  (Map_set (name peer) neighborRouter (neighbors this))) w)).
Proof. intros Hl Hp. unfold addNeighbor. by rewrite Hl, Hp. Qed.

(** X5. [addNeighbor] registers the peer in the caller's neighbor map under
    the peer's name and prints one INFO line; it is one-way: every other
    router, the peer included, keeps its neighbor map, and no routing table
    and no name changes. *)
Theorem X5_addNeighbor_one_way (w : World) (self neighborRouter : Loc)
    (this peer : Router) :
  routers w !! self = Some this →
  routers w !! neighborRouter = Some peer →
  ∃ w',
    addNeighbor self neighborRouter w = Some w'
    ∧ console w' = console w ++ [INFO (name this) (name peer)]
    ∧ Map_get (name peer) (neighbors_at w' self) = Some neighborRouter
    ∧ (∀ k, k ≠ name peer →
         Map_get k (neighbors_at w' self) = Map_get k (neighbors this))
    ∧ (∀ l, l ≠ self → routers w' !! l = routers w !! l)
    ∧ (∀ l, table_at w' l = table_at w l ∧ name_at w' l = name_at w l).
Proof.
  intros Hl Hp. unfold addNeighbor. rewrite Hl, Hp. simpl.
  eexists. split; [done|]. split; [done|].
  assert (Hself : ∀ r, <[self:=r]> (routers w) !! self = Some r).
  { intros r. apply list_lookup_insert_eq. by apply lookup_lt_Some in Hl. }
  unfold neighbors_at, table_at, name_at. simpl. rewrite Hself. simpl.
  split; [apply Map_get_set_eq|].
  split; [intros k Hk; by apply Map_get_set_ne|].
  split; [intros l Hne; by apply list_lookup_insert_ne|].
  intros l. destruct (decide (self = l)) as [<-|Hne].
  - by rewrite Hself, Hl.
  - by rewrite list_lookup_insert_ne.
Qed.

Lemma X5_witness :
  ∃ w',
    addNeighbor 1 0 one_way_world = Some w'
    ∧ Map_get "A" (neighbors_at w' 1) = Some 0%nat
    ∧ routers w' !! 0%nat = routers one_way_world !! 0%nat.
Proof.
  destruct (X5_addNeighbor_one_way one_way_world 1 0 _ _ eq_refl eq_refl)
    as (w' & Hrun & _ & Hget & _ & Hother & _).
  exists w'. refine (conj Hrun (conj Hget (Hother 0%nat _))). lia.
Defined.

(** X6. The neighbor map is keyed by name: registering a second router that
    carries the same name as one already registered replaces the first
    handle, and the router store ends up as if the first registration had
    never been made.  Repeating a registration therefore changes nothing. *)
Theorem X6_addNeighbor_same_name (w : World) (self first second : Loc)
    (this r1 r2 : Router) :
  routers w !! self = Some this →
  routers w !! first = Some r1 →
  routers w !! second = Some r2 →
  name r1 = name r2 →
  ∃ w1 w2 w2',
    addNeighbor self first w = Some w1
    ∧ addNeighbor self second w1 = Some w2
    ∧ addNeighbor self second w = Some w2'
    ∧ routers w2 = routers w2'
    ∧ Map_get (name r1) (neighbors_at w2 self) = Some second.
Proof.
  intros Hl H1 H2 Hname.
  assert (Hlt : (self < length (routers w))%nat) by (by apply lookup_lt_Some in Hl).
  pose proof (addNeighbor_Some _ _ _ _ _ Hl H1) as Hrun1.
  pose proof (addNeighbor_Some _ _ _ _ _ Hl H2) as Hrun2'.
  set (this1 := mkRouter (name this) (routingTable this)
                  (Map_set (name r1) first (neighbors this))) in Hrun1.
  set (w1 := log _ (store self this1 w)) in Hrun1.
  assert (Hl1 : routers w1 !! self = Some this1)
    by (simpl; by apply list_lookup_insert_eq).
  assert (∃ r2', routers w1 !! second = Some r2' ∧ name r2' = name r2)
    as (r2' & H2' & Hname2).
  { destruct (decide (self = second)) as [<-|Hne].
    - exists this1. split; [done|]. simpl. congruence.
    - exists r2. split; [|done]. simpl. by rewrite list_lookup_insert_ne. }
  pose proof (addNeighbor_Some _ _ _ _ _ Hl1 H2') as Hrun2.
  eexists _, _, _. split; [exact Hrun1|]. split; [exact Hrun2|].
  split; [exact Hrun2'|]. simpl.
  rewrite list_insert_insert_eq, Hname2, Hname, Map_set_set.
  split; [done|]. unfold neighbors_at.
  simpl. rewrite list_lookup_insert_eq by (rewrite ?length_insert; done). apply Map_get_set_eq.
Qed.

Lemma X6_witness :
  ∃ w1 w2,
    addNeighbor 0 1 converged = Some w1
    ∧ addNeighbor 0 1 w1 = Some w2
    ∧ routers w2 = routers w1.
Proof.
  destruct (X6_addNeighbor_same_name converged 0 1 1 _ _ _ eq_refl eq_refl eq_refl eq_refl)
    as (w1 & w2 & w2' & Hrun1 & Hrun2 & Hrun2' & Hsame & _).
  exists w1, w2. refine (conj Hrun1 (conj Hrun2 _)).
  rewrite Hsame. rewrite Hrun1 in Hrun2'. by injection Hrun2' as ->.
Defined.

(** ** Printing a table *)

Lemma console_print_rows (table : JSMap string) w :
  console (foldl (fun acc entry => log (TABLE_ROW entry.1 entry.2) acc) w table)
  = console w ++ ((fun entry => TABLE_ROW entry.1 entry.2) <$> table).
Proof.
  revert w. induction table as [|entry table IH]; intros w; csimpl.
  - by rewrite app_nil_r.
  - rewrite IH. simpl. by rewrite <- app_assoc.
Qed.

(** X7. [printRoutingTable] only prints: the router store is what it was,
    and the console gains the header, then one row per table entry in
    insertion order (or the single empty-table line when there is no entry),
    then the footer; that is two lines more than the table has entries, three
    for an empty table. *)
Theorem X7_printRoutingTable_read_only (w : World) (self : Loc) (this : Router) :
  routers w !! self = Some this →
  ∃ w',
    printRoutingTable self w = Some w'
    ∧ routers w' = routers w
    ∧ console w' = console w ++ table_lines this
    ∧ length (table_lines this) = (2 + Nat.max 1 (length (routingTable this)))%nat.
Proof.
  intros Hl. unfold printRoutingTable, table_lines. rewrite Hl. simpl.
  eexists. split; [done|]. simpl.
  destruct (decide (length (routingTable this) = 0%nat)) as [Hempty|Hrows].
  - split; [done|]. split; [simpl; by rewrite <- !app_assoc|]. by rewrite Hempty.
  - rewrite routers_print_rows, console_print_rows.
    split; [done|]. split.
    + simpl. rewrite <- !app_assoc. done.
    + simpl. rewrite length_app, length_fmap. simpl. lia.
Qed.

Lemma X7_witness :
  ∃ w',
    printRoutingTable 0 converged = Some w'
    ∧ routers w' = routers converged
    ∧ console w'
      = [TABLE_HEADER "R1"; TABLE_ROW "192.168.1.0/24" "R1";
         TABLE_ROW "192.168.2.0/24" "R2"; TABLE_ROW "192.168.3.0/24" "R2";
         TABLE_FOOTER].
Proof.
  destruct (X7_printRoutingTable_read_only converged 0 _ eq_refl)
    as (w' & Hrun & Hr & Hc & _).
  exists w'. exact (conj Hrun (conj Hr Hc)).
Defined.

(** ** Invariants of the public surface *)

Lemma run_calls_reachable calls w w' :
  reachable w → run_calls calls w = Some w' → reachable w'.
Proof.
  revert w. induction calls as [|c calls IH]; intros w Hw; simpl.
  - by intros [= <-].
  - destruct (run_call c w) as [w1|] eqn:Hcall; [|done]. simpl.
    apply IH. by eapply reachable_call.
Qed.

(** X8. Whatever sequence of constructor and method calls a driver makes,
    starting from nothing, the world it ends in is well formed: no neighbor
    handle dangles, every neighbor is registered under its own name, and no
    routing table or neighbor map holds two entries for one key. *)
Theorem X8_calls_keep_world_well_formed (calls : list Call) (w : World) :
  run_calls calls empty_world = Some w →
  closed w ∧ handles_ok w ∧ maps_ok w.
Proof.
  intros Hrun.
  assert (Hreach : reachable w)
    by (eapply run_calls_reachable; [apply reachable_empty | exact Hrun]).
  destruct (reachable_World_ok _ Hreach) as [Hh Hm].
  split; [by apply handles_ok_closed|done].
Qed.

Lemma X8_witness :
  ∃ w, run_calls simulation_calls empty_world = Some w
       ∧ closed w ∧ handles_ok w ∧ maps_ok w.
Proof.
  eexists. split; [vm_compute; reflexivity|].
  apply (X8_calls_keep_world_well_formed simulation_calls). vm_compute. reflexivity.
Defined.

Lemma Map_keys_set_subseteq {V} k (v : V) (m : JSMap V) :
  Map_keys m ⊆ Map_keys (Map_set k v m).
Proof.
  destruct (decide (k ∈ Map_keys m)) as [Hin|Hnotin].
  - by rewrite Map_keys_set_present.
  - rewrite Map_set_absent by done. unfold Map_keys. rewrite fmap_app.
    intros x Hx. apply elem_of_app. by left.
Qed.

Lemma grows_refl w : grows w w.
Proof.
  split; [exists []; by rewrite app_nil_r|]. intros l r Hl. by exists r.
Qed.

Lemma grows_trans w1 w2 w3 : grows w1 w2 → grows w2 w3 → grows w1 w3.
Proof.
  intros [[lines12 Hc12] H12] [[lines23 Hc23] H23]. split.
  - exists (lines12 ++ lines23). by rewrite Hc23, Hc12, <- app_assoc.
  - intros l r Hl.
    destruct (H12 _ _ Hl) as (r2 & Hl2 & Hn2 & Ht2 & Hnb2).
    destruct (H23 _ _ Hl2) as (r3 & Hl3 & Hn3 & Ht3 & Hnb3).
    exists r3. split; [done|]. split; [congruence|].
    split; by etrans.
Qed.

Lemma grows_routers w w' lines :
  routers w' = routers w → console w' = console w ++ lines → grows w w'.
Proof.
  intros Hr Hc. split; [by exists lines|].
  intros l r Hl. exists r. by rewrite Hr.
Qed.

Lemma grows_store w l this r' line :
  routers w !! l = Some this →
  name r' = name this →
  Map_keys (routingTable this) ⊆ Map_keys (routingTable r') →
  Map_keys (neighbors this) ⊆ Map_keys (neighbors r') →
  grows w (store l r' (log line w)) ∧ grows w (log line (store l r' w)).
Proof.
  intros Hl Hn Ht Hnb.
  assert (Hcommon : ∀ l0 r, routers w !! l0 = Some r →
            ∃ r0, <[l:=r']> (routers w) !! l0 = Some r0
                  ∧ name r0 = name r
                  ∧ Map_keys (routingTable r) ⊆ Map_keys (routingTable r0)
                  ∧ Map_keys (neighbors r) ⊆ Map_keys (neighbors r0)).
  { intros l0 r Hl0. destruct (decide (l = l0)) as [<-|Hne].
    - exists r'. rewrite list_lookup_insert_eq by (by apply lookup_lt_Some in Hl).
      by simplify_eq.
    - exists r. by rewrite list_lookup_insert_ne. }
  split; (split; [by exists [line]|exact Hcommon]).
Qed.

Lemma receiveRoutingUpdate_grows w w' self p nh m :
  receiveRoutingUpdate self p nh m w = Some w' → grows w w'.
Proof.
  intros (this & Hl & ->)%receiveRoutingUpdate_inv.
  apply (grows_store w self this); [done|done| |done].
  apply Map_keys_set_subseteq.
Qed.

Lemma addNeighbor_grows w w' self nb :
  addNeighbor self nb w = Some w' → grows w w'.
Proof.
  unfold addNeighbor.
  destruct (routers w !! self) as [this|] eqn:Hl; [|done]. simpl.
  destruct (routers w !! nb) as [peer|] eqn:Hp; [|done]. simpl.
  intros [= <-]. apply (grows_store w self this); [done|done|done|].
  apply Map_keys_set_subseteq.
Qed.

Lemma advertise_entry_grows selfName p nh nbs w w' :
  advertise_entry selfName p nh nbs w = Some w' → grows w w'.
Proof.
  revert w. induction nbs as [|[n l0] nbs IH]; intros w; cbn [advertise_entry].
  - intros [= <-]. apply grows_refl.
  - destruct (decide (n ≠ nh)); [|by apply IH].
    destruct (receiveRoutingUpdate l0 p selfName None w) as [w1|] eqn:Hupd; [|done].
    simpl. intros Hrest. eapply grows_trans; [|by apply IH].
    by eapply receiveRoutingUpdate_grows.
Qed.

Lemma advertise_loop_grows bound i self w w' :
  advertise_loop bound i self w = Some w' → grows w w'.
Proof.
  revert i w. induction bound as [|bound IH]; intros i w; cbn [advertise_loop].
  - intros [= <-]. apply grows_refl.
  - destruct (routers w !! self) as [this|]; [|done]. simpl.
    destruct (routingTable this !! i) as [[p nh]|]; [|intros [= <-]; apply grows_refl].
    destruct (advertise_entry _ _ _ _ w) as [w1|] eqn:Hentry; [|done]. simpl.
    intros Hloop. eapply grows_trans; [by eapply advertise_entry_grows|by eapply IH].
Qed.

Lemma run_call_grows c w w' : run_call c w = Some w' → grows w w'.
Proof.
  destruct c as [nm|self nb|self p nh m|self|self packet|self]; simpl.
  - intros [= <-]. split; [exists []; simpl; by rewrite app_nil_r|].
    intros l r Hl. exists r. simpl. by rewrite (lookup_app_l_Some _ _ _ _ Hl).
  - apply addNeighbor_grows.
  - apply receiveRoutingUpdate_grows.
  - unfold advertiseRoutes. destruct (routers w !! self) as [this|]; [|done]. simpl.
    intros Hloop. eapply grows_trans; [|by eapply advertise_loop_grows].
    by apply (grows_routers _ _ [ADVERTISE (name this)]).
  - destruct (receivePacket self packet w) as [[packet' w1]|] eqn:Hrun; [|done].
    simpl. intros [= <-].
    destruct (receivePacket_journey _ _ _ _ _ Hrun) as (lines & Hc & Hr & _).
    by apply (grows_routers _ _ lines).
  - unfold printRoutingTable. destruct (routers w !! self) as [this|] eqn:Hl; [|done].
    simpl. intros [= <-]. apply (grows_routers _ _ (table_lines this)).
    + simpl. destruct (decide _); [done|]. by rewrite routers_print_rows.
    + simpl. unfold table_lines. destruct (decide _); simpl.
      * by rewrite <- !app_assoc.
      * rewrite console_print_rows. simpl. by rewrite <- !app_assoc.
Qed.

(** X9. No call ever takes anything away.  After any sequence of driver
    calls that returns, the console is the old console with lines appended,
    and every router that existed is still allocated under the same handle
    and name, with every routing-table key and every neighbor key it had:
    routes may be overwritten, never withdrawn, and links never unplugged. *)
Theorem X9_calls_only_add (calls : list Call) (w w' : World) :
  run_calls calls w = Some w' → grows w w'.
Proof.
  revert w. induction calls as [|c calls IH]; intros w; simpl.
  - intros [= <-]. apply grows_refl.
  - destruct (run_call c w) as [w1|] eqn:Hcall; [|done]. simpl.
    intros Hrest. eapply grows_trans; [by eapply run_call_grows|by apply IH].
Qed.

Lemma X9_witness :
  ∃ w', run_calls [CallAdvertise 1; CallUpdate 0 R3_lan "R9" None; CallAddNeighbor 2 0]
          converged = Some w'
        ∧ grows converged w'.
Proof.
  eexists. split; [vm_compute; reflexivity|].
  apply (X9_calls_only_add
           [CallAdvertise 1; CallUpdate 0 R3_lan "R9" None; CallAddNeighbor 2 0]).
  vm_compute. reflexivity.
Defined.

(** ** More on [advertiseRoutes] *)

(** What [advertiseRoutes] does to the store, without any assumption on the
    keys: it returns as soon as the caller's neighbor handles are allocated,
    and a routing-table lookup afterwards gives the caller's name where the
    prefix was offered to that router and the old answer elsewhere. *)
Lemma advertiseRoutes_effect w self this :
  routers w !! self = Some this →
  allocated w (neighbors this) →
  ∃ w',
    advertiseRoutes self w = Some w'
    ∧ same_links w w'
    ∧ ∀ l q,
        Map_get q (table_at w' l)
        = if advertised (routingTable this) (neighbors this) q l
          then Some (name this) else Map_get q (table_at w l).
Proof.
  intros Hl Halloc.
  set (w0 := log (ADVERTISE (name this)) w).
  destruct (advertise_loop_spec (length (routingTable this)) 0 self w0 this)
    as (w' & Hloop & Hsame & _); [done|done|lia|].
  assert (Htables := advertise_loop_tables _ _ self w0 _ this Hl Hloop ltac:(lia)).
  rewrite drop_0 in Htables.
  exists w'. split; [unfold advertiseRoutes; by rewrite Hl|]. split; [done|].
  exact Htables.
Qed.

Lemma advertise_entry_frame selfName p nh nbs w w' l :
  advertise_entry selfName p nh nbs w = Some w' →
  l ∉ nbs.*2 → routers w' !! l = routers w !! l.
Proof.
  revert w. induction nbs as [|[n l0] nbs IH]; intros w; cbn [advertise_entry].
  - by intros [= <-].
  - rewrite fmap_cons, not_elem_of_cons. simpl. intros Hrun [Hne Hnotin].
    destruct (decide (n ≠ nh)); [|by apply IH].
    destruct (receiveRoutingUpdate l0 p selfName None w) as [w1|] eqn:Hupd; [|done].
    simpl in Hrun. rewrite (IH _ Hrun Hnotin).
    apply receiveRoutingUpdate_inv in Hupd as (r & Hr & ->).
    by rewrite lookup_store_ne.
Qed.

Lemma advertise_loop_frame bound i self w w' this l :
  routers w !! self = Some this →
  advertise_loop bound i self w = Some w' →
  l ∉ (neighbors this).*2 → routers w' !! l = routers w !! l.
Proof.
  revert i w this. induction bound as [|bound IH]; intros i w this Hl;
    cbn [advertise_loop].
  - by intros [= <-].
  - rewrite Hl. simpl.
    destruct (routingTable this !! i) as [[p nh]|]; [|by intros [= <-]].
    destruct (advertise_entry _ _ _ _ w) as [w1|] eqn:Hentry; [|done]. simpl.
    intros Hloop Hnotin.
    destruct (advertise_entry_spec _ _ _ _ _ _ Hentry) as (Hsame1 & _).
    destruct (proj2 Hsame1 _ _ Hl) as (this1 & Hl1 & _ & Hnbs1).
    rewrite (IH _ _ _ Hl1 Hloop) by (by rewrite Hnbs1).
    by eapply advertise_entry_frame.
Qed.

(** X10. [advertiseRoutes] writes to registered neighbors only: it returns
    when the caller's neighbor handles are allocated, names and neighbor
    maps stay as they were, and every router that is not one of the caller's
    neighbors is left exactly as it was, the caller itself included unless
    it is registered as its own neighbor. *)
Theorem X10_advertise_touches_neighbors_only (w : World) (self : Loc)
    (this : Router) :
  routers w !! self = Some this →
  allocated w (neighbors this) →
  ∃ w',
    advertiseRoutes self w = Some w'
    ∧ same_links w w'
    ∧ (∀ l, l ∉ (neighbors this).*2 → routers w' !! l = routers w !! l)
    ∧ (self ∉ (neighbors this).*2 → routers w' !! self = Some this).
Proof.
  intros Hl Halloc.
  destruct (advertiseRoutes_effect _ _ _ Hl Halloc) as (w' & Hrun & Hsame & _).
  exists w'. split; [done|]. split; [done|].
  assert (Hframe : ∀ l, l ∉ (neighbors this).*2 → routers w' !! l = routers w !! l).
  { intros l Hnotin. unfold advertiseRoutes in Hrun. rewrite Hl in Hrun.
    simpl in Hrun.
    exact (advertise_loop_frame _ _ self (log (ADVERTISE (name this)) w) _ this l
             Hl Hrun Hnotin). }
  split; [done|]. intros Hnotin. by rewrite Hframe.
Qed.

Lemma X10_witness :
  ∃ w',
    advertiseRoutes 0 converged = Some w'
    ∧ routers w' !! 0%nat = routers converged !! 0%nat
    ∧ routers w' !! 2%nat = routers converged !! 2%nat.
Proof.
  assert (Halloc : allocated converged [("R2", 1%nat)]) by decide_by_compute.
  destruct (X10_advertise_touches_neighbors_only converged 0 _ eq_refl Halloc)
    as (w' & Hrun & _ & Hframe & _).
  exists w'.
  refine (conj Hrun (conj (Hframe 0%nat _) (Hframe 2%nat _)));
    intros Hin; apply list_elem_of_In in Hin; simpl in Hin; lia.
Defined.

Lemma advertise_loop_no_neighbors bound i self w this :
  routers w !! self = Some this → neighbors this = [] →
  advertise_loop bound i self w = Some w.
Proof.
  intros Hl Hnbs. revert i. induction bound as [|bound IH]; intros i; [done|].
  cbn [advertise_loop]. rewrite Hl. simpl.
  destruct (routingTable this !! i) as [[p nh]|]; [|done].
  rewrite Hnbs. simpl. apply IH.
Qed.

(** X11. A router with an empty routing table, or with no registered
    neighbor, has nothing to send: [advertiseRoutes] prints its ADVERTISE
    line and changes nothing else. *)
Theorem X11_advertise_nothing_to_send (w : World) (self : Loc) (this : Router) :
  routers w !! self = Some this →
  routingTable this = [] ∨ neighbors this = [] →
  advertiseRoutes self w = Some (log (ADVERTISE (name this)) w).
Proof.
  intros Hl Hempty. unfold advertiseRoutes. rewrite Hl. simpl.
  destruct Hempty as [->|Hnbs]; [done|].
  by apply (advertise_loop_no_neighbors _ _ _ _ this).
Qed.

Lemma X11_witness :
  advertiseRoutes 1 one_way_world = Some (log (ADVERTISE "B") one_way_world).
Proof.
  apply (X11_advertise_nothing_to_send one_way_world 1 _ eq_refl). by left.
Defined.

Lemma Map_set_id {V} k (v : V) (m : JSMap V) :
  Map_get k m = Some v → Map_set k v m = m.
Proof.
  induction m as [|[k0 v0] m IH]; simpl; [done|].
  destruct (decide (k0 = k)) as [->|Hne].
  - by intros [= ->].
  - intros H. by rewrite IH.
Qed.

Lemma receiveRoutingUpdate_noop w w' l p v m :
  receiveRoutingUpdate l p v m w = Some w' →
  Map_get p (table_at w l) = Some v →
  routers w' = routers w.
Proof.
  intros (r & Hr & ->)%receiveRoutingUpdate_inv.
  rewrite (table_at_lookup _ _ _ Hr). intros Hget. simpl.
  unfold updated. rewrite (Map_set_id _ _ _ Hget).
  destruct r as [nm table nbs]. simpl. by apply list_insert_id.
Qed.

Lemma table_at_routers w w' l : routers w' = routers w → table_at w' l = table_at w l.
Proof. unfold table_at. by intros ->. Qed.

Lemma advertise_entry_noop selfName p nh nbs w w' :
  (∀ n l, (n, l) ∈ nbs → n ≠ nh → Map_get p (table_at w l) = Some selfName) →
  advertise_entry selfName p nh nbs w = Some w' →
  routers w' = routers w.
Proof.
  revert w. induction nbs as [|[n l0] nbs IH]; intros w Hknown; cbn [advertise_entry].
  - by intros [= <-].
  - assert (Hrest : ∀ n' l, (n', l) ∈ nbs → n' ≠ nh →
              Map_get p (table_at w l) = Some selfName).
    { intros n' l Hin. apply Hknown. apply elem_of_cons. by right. }
    destruct (decide (n ≠ nh)) as [Hne|_]; [|by apply IH].
    destruct (receiveRoutingUpdate l0 p selfName None w) as [w1|] eqn:Hupd; [|done].
    simpl. intros Hrun.
    assert (Hr1 : routers w1 = routers w).
    { apply (receiveRoutingUpdate_noop _ _ _ _ _ _ Hupd).
      apply (Hknown n); [apply elem_of_cons; by left|done]. }
    rewrite <- Hr1. apply IH; [|done].
    intros n' l Hin Hne'. rewrite (table_at_routers _ _ _ Hr1).
    by apply (Hrest n').
Qed.

Lemma advertise_loop_noop bound i self w w' this :
  routers w !! self = Some this →
  (∀ p nh n l, (p, nh) ∈ drop i (routingTable this) → (n, l) ∈ neighbors this →
     n ≠ nh → Map_get p (table_at w l) = Some (name this)) →
  advertise_loop bound i self w = Some w' →
  routers w' = routers w.
Proof.
  revert i w. induction bound as [|bound IH]; intros i w Hl Hknown;
    cbn [advertise_loop].
  - by intros [= <-].
  - rewrite Hl. simpl.
    destruct (routingTable this !! i) as [[p nh]|] eqn:Hi; [|by intros [= <-]].
    destruct (advertise_entry _ _ _ _ w) as [w1|] eqn:Hentry; [|done]. simpl.
    intros Hloop. rewrite (drop_S _ _ _ Hi) in Hknown.
    assert (Hr1 : routers w1 = routers w).
    { apply (advertise_entry_noop _ _ _ _ _ _ (fun n l => Hknown p nh n l
               ltac:(apply elem_of_cons; by left)) Hentry). }
    rewrite <- Hr1. apply (IH (S i)); [by rewrite Hr1| |done].
    intros p' nh' n l Hin Hn Hne. rewrite (table_at_routers _ _ _ Hr1).
    apply (Hknown p' nh' n l); [apply elem_of_cons; by right|done|done].
Qed.

(** X12. Advertising twice in a row is the same as advertising once, for a
    router that is not registered as its own neighbor: the second
    [advertiseRoutes] finds every neighbor already holding what it offers
    and leaves the router store as the first one left it. *)
Theorem X12_advertise_twice (w : World) (self : Loc) (this : Router) :
  routers w !! self = Some this →
  allocated w (neighbors this) →
  self ∉ (neighbors this).*2 →
  ∃ w1 w2,
    advertiseRoutes self w = Some w1
    ∧ advertiseRoutes self w1 = Some w2
    ∧ routers w2 = routers w1.
Proof.
  intros Hl Halloc Hnotself.
  destruct (advertiseRoutes_effect _ _ _ Hl Halloc) as (w1 & Hrun1 & Hsame1 & Htab1).
  assert (Hl1 : routers w1 !! self = Some this).
  { unfold advertiseRoutes in Hrun1. rewrite Hl in Hrun1. simpl in Hrun1.
    rewrite <- Hl.
    exact (advertise_loop_frame _ _ self (log (ADVERTISE (name this)) w) _ this self
             Hl Hrun1 Hnotself). }
  assert (Halloc1 : allocated w1 (neighbors this))
    by (by eapply allocated_same_links).
  destruct (advertiseRoutes_effect _ _ _ Hl1 Halloc1) as (w2 & Hrun2 & _).
  exists w1, w2. split; [done|]. split; [done|].
  unfold advertiseRoutes in Hrun2. rewrite Hl1 in Hrun2. simpl in Hrun2.
  apply (advertise_loop_noop (length (routingTable this)) 0 self
           (log (ADVERTISE (name this)) w1) w2 this Hl1); [|exact Hrun2].
  intros p nh n l HinT HinN Hne. rewrite drop_0 in HinT.
  change (table_at (log (ADVERTISE (name this)) w1) l) with (table_at w1 l).
  rewrite Htab1. rewrite (proj2 (advertised_true _ _ _ _)); [done|].
  by exists nh, n.
Qed.

Lemma X12_witness :
  ∃ w1 w2,
    advertiseRoutes 1 converged = Some w1
    ∧ advertiseRoutes 1 w1 = Some w2
    ∧ routers w2 = routers w1.
Proof.
  assert (Halloc : allocated converged [("R1", 0%nat); ("R3", 2%nat)])
    by decide_by_compute.
  apply (X12_advertise_twice converged 1 _ eq_refl Halloc).
  intros Hin. apply list_elem_of_In in Hin. simpl in Hin. lia.
Defined.

(** The restriction to routers that are not their own neighbor is needed:
    such a router rewrites its own next hops while advertising, so its
    second round offers to T what the first one withheld. *)
Example advertise_twice_own_neighbor :
  ∃ w1 w2,
    advertiseRoutes 0 self_world = Some w1
    ∧ advertiseRoutes 0 w1 = Some w2
    ∧ table_at w1 1 = [("10.0.1.0/24", "S")]
    ∧ table_at w2 1 = [("10.0.1.0/24", "S"); ("10.0.0.0/24", "S")].
Proof.
  do 2 eexists. split; [vm_compute; reflexivity|].
  split; [vm_compute; reflexivity|]. split; reflexivity.
Qed.

(** ** Advertisement followed by forwarding *)

(** X13. What a neighbor does with a route it has just been offered.  Let A
    hold an entry (prefix, nextHop) and have B registered under a name other
    than nextHop.  After [A.advertiseRoutes()], B's table sends the prefix
    to A's name, so a packet for that prefix handed to B with more than one
    hop of ttl left is forwarded to whatever router B has registered under
    A's name - A itself when the link was registered both ways with unique
    keys - and, when B has registered no neighbor under A's name (a one-way
    link), B reports the packet as delivered locally although it never
    leaves B. *)
Theorem X13_offered_route_is_used (w : World) (A B : Loc) (a : Router)
    (prefix nextHop neighborName : string) (packet : Packet) :
  handles_ok w →
  routers w !! A = Some a →
  (prefix, nextHop) ∈ routingTable a →
  (neighborName, B) ∈ neighbors a →
  neighborName ≠ nextHop →
  getNetworkPrefix (destinationIp packet) = prefix →
  0 < ttl packet - 1 →
  ∃ w' b',
    advertiseRoutes A w = Some w'
    ∧ routers w' !! B = Some b'
    ∧ name b' = neighborName
    ∧ Map_get prefix (routingTable b') = Some (name a)
    ∧ let w1 := log (RECEIVE neighborName (sourceIp packet) (destinationIp packet)) w' in
      (∀ l, Map_get (name a) (neighbors b') = Some l →
         receivePacket B packet w'
         = receivePacket l (decrement_ttl packet)
             (log (FORWARD neighborName (destinationIp packet) (name a)) w1))
      ∧ (NoDup (Map_keys (neighbors b')) → (name a, A) ∈ neighbors b' →
         Map_get (name a) (neighbors b') = Some A)
      ∧ (Map_get (name a) (neighbors b') = None →
         receivePacket B packet w'
         = Some (decrement_ttl packet,
                 log (DELIVER neighborName (destinationIp packet)) w1)).
Proof.
  intros Hh Hl HinT HinN Hne Hprefix Hpos.
  destruct (advertiseRoutes_effect _ _ _ Hl (handles_ok_allocated _ _ _ Hh Hl))
    as (w' & Hrun & Hsame & Htab).
  destruct (handles_ok_lookup _ _ _ _ _ Hh Hl HinN) as (b & Hb & Hnameb).
  destruct (proj2 Hsame _ _ Hb) as (b' & Hb' & Hnameb' & Hnbsb').
  assert (Hroute : Map_get prefix (routingTable b') = Some (name a)).
  { rewrite <- (table_at_lookup _ _ _ Hb'), Htab.
    rewrite (proj2 (advertised_true _ _ _ _)); [done|]. by exists nextHop, neighborName. }
  assert (Hh' : handles_ok w') by (by eapply handles_ok_same_links).
  exists w', b'. split; [done|]. split; [done|]. split; [congruence|].
  split; [done|]. simpl.
  assert (Hbody := receivePacket_body B packet w').
  rewrite Hb' in Hbody. simpl in Hbody.
  rewrite decide_False in Hbody by lia.
  rewrite Hprefix, Hroute, Hnameb', Hnameb in Hbody.
  split; [|split].
  - intros l Hget. rewrite Hget in Hbody.
    destruct (handles_ok_lookup _ _ _ _ _ Hh' Hb' (Map_get_Some_elem _ _ _ Hget))
      as (r & Hr & Hnamer).
    rewrite Hr, Hnamer in Hbody. exact Hbody.
  - intros Hnd Hin. by apply Map_get_elem_NoDup.
  - intros Hget. rewrite Hget in Hbody. exact Hbody.
Qed.

Lemma X13_witness :
  ∃ w',
    advertiseRoutes 0 one_way_world = Some w'
    ∧ table_at w' 1 = [("10.1.0.0/24", "A")]
    ∧ receivePacket 1 (Packet_new "10.9.9.9" "10.1.0.77" "lost") w'
      = Some (decrement_ttl (Packet_new "10.9.9.9" "10.1.0.77" "lost"),
              log (DELIVER "B" "10.1.0.77")
                (log (RECEIVE "B" "10.9.9.9" "10.1.0.77") w')).
Proof.
  assert (Hh : handles_ok one_way_world) by decide_by_compute.
  assert (Hin1 : ("10.1.0.0/24", "A") ∈ [("10.1.0.0/24", "A")])
    by (apply list_elem_of_In; left; reflexivity).
  assert (Hin2 : ("B", 1%nat) ∈ [("B", 1%nat)])
    by (apply list_elem_of_In; left; reflexivity).
  assert (Hne : "B" ≠ "A") by discriminate.
  assert (Hpos : 0 < 32 - 1) by lia.
  destruct (X13_offered_route_is_used one_way_world 0 1 _ "10.1.0.0/24" "A" "B"
              (Packet_new "10.9.9.9" "10.1.0.77" "lost")
              Hh eq_refl Hin1 Hin2 Hne eq_refl Hpos)
    as (w' & b' & Hrun & Hb' & _ & _ & _ & _ & Hdeliver).
  assert (Hw' : Some w' = Some (mkWorld [ mkRouter "A" [("10.1.0.0/24", "A")] [("B", 1%nat)];
                                mkRouter "B" [("10.1.0.0/24", "A")] [] ]
                       [ADVERTISE "A"; UPDATE "B" "10.1.0.0/24" "A"])).
  { rewrite <- Hrun. vm_compute. reflexivity. }
  injection Hw' as ->. injection Hb' as <-.
  eexists. split; [exact Hrun|]. split; [reflexivity|]. exact (Hdeliver eq_refl).
Defined.

(** ** More on packet journeys *)

Lemma forwards_count_app l1 l2 :
  length (filter (fun line => is_FORWARD line = true) (l1 ++ l2))
  = (length (filter (fun line => is_FORWARD line = true) l1)
     + length (filter (fun line => is_FORWARD line = true) l2))%nat.
Proof. by rewrite filter_app, length_app. Qed.

(** X14. The console trace of a packet journey is a chain: every router on
    the way prints RECEIVE followed by FORWARD naming the router that prints
    the next RECEIVE, and the last router prints RECEIVE followed by exactly
    one closing line (TTL drop, no-route drop or delivery), after which
    nothing is printed.  The trace starts at the router the packet was
    handed to, has two lines per invocation and one FORWARD fewer than
    invocations. *)
Theorem X14_journey_is_a_chain (w : World) (self : Loc) (this : Router)
    (packet : Packet) :
  closed w →
  routers w !! self = Some this →
  ∃ packet' w' lines,
    receivePacket self packet w = Some (packet', w')
    ∧ console w' = console w ++ lines
    ∧ journey_shape lines = true
    ∧ receiver lines = Some (name this)
    ∧ length lines = (2 * invocations lines)%nat
    ∧ (length (filter (fun line => is_FORWARD line = true) lines) + 1)%nat
      = invocations lines.
Proof.
  remember (Z.to_nat (ttl packet)) as n eqn:Hn.
  revert self this packet w Hn.
  induction n as [n IH] using lt_wf_ind. intros self this packet w Hn Hok Hl.
  rewrite receivePacket_body, Hl. simpl.
  set (line := RECEIVE (name this) (sourceIp packet) (destinationIp packet)).
  assert (Hlast : ∀ closing,
            match closing with
            | DROP_TTL s | DROP_NOROUTE s _ | DELIVER s _ => s = name this
            | _ => False
            end →
            ∃ packet' w' lines,
              Some (decrement_ttl packet, log closing (log line w)) = Some (packet', w')
              ∧ console w' = console w ++ lines
              ∧ journey_shape lines = true
              ∧ receiver lines = Some (name this)
              ∧ length lines = (2 * invocations lines)%nat
              ∧ (length (filter (fun line => is_FORWARD line = true) lines) + 1)%nat
                = invocations lines).
  { intros closing Hclosing.
    exists (decrement_ttl packet), (log closing (log line w)), [line; closing].
    split; [done|]. split; [simpl; by rewrite <- app_assoc|].
    destruct closing; try done; subst; simpl;
      rewrite bool_decide_eq_true_2 by done; done. }
  destruct (decide (ttl packet - 1 <= 0)) as [Hle|Hgt]; [by apply Hlast|].
  destruct (Map_get _ (routingTable this)) as [nextHopRouterName|]; [|by apply Hlast].
  destruct (Map_get _ (neighbors this)) as [nextHop|] eqn:Hnb; [|by apply Hlast].
  apply Map_get_Some_elem in Hnb.
  destruct (closed_lookup _ _ _ _ _ Hok Hl Hnb) as (nextHopRouter & Hl').
  rewrite Hl'.
  set (w1 := log (FORWARD _ _ _) _).
  destruct (IH (Z.to_nat (ttl (decrement_ttl packet))) ltac:(simpl; lia)
              nextHop nextHopRouter (decrement_ttl packet) w1 eq_refl Hok Hl')
    as (packet' & w' & lines & Hrun & Hc & Hshape & Hrecv & Hlen & Hfw).
  exists packet', w',
    (line :: FORWARD (name this) (destinationIp packet) (name nextHopRouter) :: lines).
  split; [done|]. split; [rewrite Hc; simpl; by rewrite <- !app_assoc|].
  split.
  { cbn [journey_shape]. rewrite Hshape, Hrecv.
    subst line. simpl. by rewrite !bool_decide_eq_true_2 by done. }
  split; [done|].
  change (line :: FORWARD (name this) (destinationIp packet) (name nextHopRouter) :: lines)
    with ([line; FORWARD (name this) (destinationIp packet) (name nextHopRouter)] ++ lines).
  rewrite invocations_app, forwards_count_app, length_app.
  change (invocations [_; _]) with 1%nat.
  change (length (filter _ [line; FORWARD _ _ _])) with 1%nat.
  simpl length. lia.
Qed.

Lemma X14_witness :
  ∃ packet' w' lines,
    receivePacket 0 myPacket converged = Some (packet', w')
    ∧ console w' = console converged ++ lines
    ∧ journey_shape lines = true
    ∧ receiver lines = Some "R1".
Proof.
  assert (Hok : closed converged) by decide_by_compute.
  destruct (X14_journey_is_a_chain converged 0 _ myPacket Hok eq_refl)
    as (packet' & w' & lines & Hrun & Hc & Hshape & Hrecv & _).
  exists packet', w', lines. exact (conj Hrun (conj Hc (conj Hshape Hrecv))).
Defined.

Lemma forwards_next prefix this :
  forwards prefix this = true →
  ∃ nextHopRouterName nextHop,
    Map_get prefix (routingTable this) = Some nextHopRouterName
    ∧ Map_get nextHopRouterName (neighbors this) = Some nextHop.
Proof.
  unfold forwards, Map_has.
  destruct (Map_get prefix (routingTable this)) as [nh|]; [|done].
  destruct (Map_get nh (neighbors this)) as [l|] eqn:Hnb; [|done].
  intros _. by exists nh, l.
Qed.

(** X15. When every router of the world forwards the packet's prefix to a
    registered neighbor, nothing ever delivers the packet: whichever router
    it is handed to, it is passed on until the ttl is used up, after exactly
    [max 1 ttl] invocations, and the last line printed is the TTL drop. *)
Theorem X15_no_exit_ends_in_ttl_drop (w : World) (self : Loc) (this : Router)
    (packet : Packet) :
  closed w →
  no_exit (getNetworkPrefix (destinationIp packet)) w →
  routers w !! self = Some this →
  ∃ packet' w' lines dropper,
    receivePacket self packet w = Some (packet', w')
    ∧ console w' = console w ++ lines
    ∧ Z.of_nat (invocations lines) = Z.max 1 (ttl packet)
    ∧ ttl packet' = Z.min 0 (ttl packet - 1)
    ∧ last lines = Some (DROP_TTL dropper).
Proof.
  remember (Z.to_nat (ttl packet)) as n eqn:Hn.
  revert self this packet w Hn.
  induction n as [n IH] using lt_wf_ind. intros self this packet w Hn Hok Hexit Hl.
  rewrite receivePacket_body, Hl. simpl.
  set (line := RECEIVE (name this) (sourceIp packet) (destinationIp packet)).
  destruct (decide (ttl packet - 1 <= 0)) as [Hle|Hgt].
  { exists (decrement_ttl packet), (log (DROP_TTL (name this)) (log line w)),
      [line; DROP_TTL (name this)], (name this).
    split; [done|]. split; [simpl; by rewrite <- app_assoc|].
    change (invocations [_; _]) with 1%nat. simpl. split; [lia|]. split; [lia|done]. }
  pose proof (proj1 (Forall_lookup _ _) Hexit _ _ Hl) as Hfw.
  destruct (forwards_next _ _ Hfw) as (nextHopRouterName & nextHop & -> & Hnb).
  rewrite Hnb. apply Map_get_Some_elem in Hnb.
  destruct (closed_lookup _ _ _ _ _ Hok Hl Hnb) as (nextHopRouter & Hl').
  rewrite Hl'.
  set (w1 := log (FORWARD _ _ _) _).
  destruct (IH (Z.to_nat (ttl (decrement_ttl packet))) ltac:(simpl; lia)
              nextHop nextHopRouter (decrement_ttl packet) w1 eq_refl Hok Hexit Hl')
    as (packet' & w' & lines & dropper & Hrun & Hc & Hinv & Httl & Hlast).
  exists packet', w',
    ([line; FORWARD (name this) (destinationIp packet) (name nextHopRouter)] ++ lines),
    dropper.
  split; [done|]. split; [rewrite Hc; simpl; by rewrite <- !app_assoc|].
  rewrite invocations_app. change (invocations [_; _]) with 1%nat.
  simpl in Hinv, Httl.
  split; [lia|]. split; [lia|].
  rewrite last_app, Hlast. done.
Qed.

Lemma X15_witness :
  ∃ packet' w' lines dropper,
    receivePacket 1 (mkPacket "10.0.9.1" "10.0.0.7" "around" 5) loop_world
    = Some (packet', w')
    ∧ console w' = console loop_world ++ lines
    ∧ Z.of_nat (invocations lines) = 5
    ∧ ttl packet' = 0
    ∧ last lines = Some (DROP_TTL dropper).
Proof.
  assert (Hok : closed loop_world) by decide_by_compute.
  assert (Hexit : no_exit "10.0.0.0/24" loop_world) by decide_by_compute.
  exact (X15_no_exit_ends_in_ttl_drop loop_world 1 _
           (mkPacket "10.0.9.1" "10.0.0.7" "around" 5) Hok Hexit eq_refl).
Defined.

(** X16. Forwarding looks at the destination's /24 prefix and at the ttl,
    and at nothing else: two packets with the same ttl and destinations in
    the same prefix, handed to the same router of the same world, visit the
    same routers and meet the same fate with the same ttl left, whatever
    their sources, payloads and host parts; their console traces differ in
    the printed addresses only. *)
Theorem X16_same_prefix_same_route (w : World) (self : Loc) (this : Router)
    (packet1 packet2 : Packet) :
  closed w →
  routers w !! self = Some this →
  ttl packet1 = ttl packet2 →
  getNetworkPrefix (destinationIp packet1) = getNetworkPrefix (destinationIp packet2) →
  ∃ packet1' w1' lines1 packet2' w2' lines2,
    receivePacket self packet1 w = Some (packet1', w1')
    ∧ receivePacket self packet2 w = Some (packet2', w2')
    ∧ console w1' = console w ++ lines1
    ∧ console w2' = console w ++ lines2
    ∧ without_addresses <$> lines1 = without_addresses <$> lines2
    ∧ ttl packet1' = ttl packet2'.
Proof.
  intros Hok Hl Httl Hprefix.
  cut (∀ wa wb, routers wa = routers w → routers wb = routers w →
        ∃ packet1' w1' lines1 packet2' w2' lines2,
          receivePacket self packet1 wa = Some (packet1', w1')
          ∧ receivePacket self packet2 wb = Some (packet2', w2')
          ∧ console w1' = console wa ++ lines1
          ∧ console w2' = console wb ++ lines2
          ∧ without_addresses <$> lines1 = without_addresses <$> lines2
          ∧ ttl packet1' = ttl packet2').
  { intros Hcut. by apply Hcut. }
  remember (Z.to_nat (ttl packet1)) as n eqn:Hn.
  revert self this packet1 packet2 Hl Httl Hprefix Hn.
  induction n as [n IH] using lt_wf_ind.
  intros self this packet1 packet2 Hl Httl Hprefix Hn wa wb Hra Hrb.
  rewrite !receivePacket_body, Hra, Hrb, Hl. simpl.
  rewrite <- Httl, <- Hprefix.
  set (line1 := RECEIVE (name this) (sourceIp packet1) (destinationIp packet1)).
  set (line2 := RECEIVE (name this) (sourceIp packet2) (destinationIp packet2)).
  assert (Hend : ∀ closing1 closing2,
            without_addresses closing1 = without_addresses closing2 →
            ∃ packet1' w1' lines1 packet2' w2' lines2,
              Some (decrement_ttl packet1, log closing1 (log line1 wa)) = Some (packet1', w1')
              ∧ Some (decrement_ttl packet2, log closing2 (log line2 wb)) = Some (packet2', w2')
              ∧ console w1' = console wa ++ lines1
              ∧ console w2' = console wb ++ lines2
              ∧ without_addresses <$> lines1 = without_addresses <$> lines2
              ∧ ttl packet1' = ttl packet2').
  { intros closing1 closing2 Hclosing.
    exists (decrement_ttl packet1), (log closing1 (log line1 wa)), [line1; closing1],
      (decrement_ttl packet2), (log closing2 (log line2 wb)), [line2; closing2].
    split; [done|]. split; [done|].
    split; [simpl; by rewrite <- app_assoc|].
    split; [simpl; by rewrite <- app_assoc|].
    split; [csimpl; by rewrite Hclosing|]. simpl. lia. }
  destruct (decide (ttl packet1 - 1 <= 0)) as [Hle|Hgt]; [by apply Hend|].
  destruct (Map_get _ (routingTable this)) as [nextHopRouterName|]; [|by apply Hend].
  destruct (Map_get _ (neighbors this)) as [nextHop|] eqn:Hnb; [|by apply Hend].
  apply Map_get_Some_elem in Hnb.
  destruct (closed_lookup _ _ _ _ _ Hok Hl Hnb) as (nextHopRouter & Hl').
  rewrite Hl'.
  set (wa1 := log (FORWARD _ (destinationIp packet1) _) _).
  set (wb1 := log (FORWARD _ (destinationIp packet2) _) _).
  destruct (IH (Z.to_nat (ttl (decrement_ttl packet1))) ltac:(simpl; lia)
              nextHop nextHopRouter (decrement_ttl packet1) (decrement_ttl packet2)
              Hl' ltac:(simpl; lia) Hprefix eq_refl wa1 wb1 Hra Hrb)
    as (packet1' & w1' & lines1 & packet2' & w2' & lines2
        & Hrun1 & Hrun2 & Hc1 & Hc2 & Hlines & Hleft).
  exists packet1', w1',
    ([line1; FORWARD (name this) (destinationIp packet1) (name nextHopRouter)] ++ lines1),
    packet2', w2',
    ([line2; FORWARD (name this) (destinationIp packet2) (name nextHopRouter)] ++ lines2).
  split; [done|]. split; [done|].
  split; [rewrite Hc1; simpl; by rewrite <- !app_assoc|].
  split; [rewrite Hc2; simpl; by rewrite <- !app_assoc|].
  split; [|done]. rewrite !fmap_app, Hlines. done.
Qed.

Lemma X16_witness :
  ∃ packet1' w1' lines1 packet2' w2' lines2,
    receivePacket 0 myPacket converged = Some (packet1', w1')
    ∧ receivePacket 0 (Packet_new "192.168.2.4" "192.168.3.200" "other") converged
      = Some (packet2', w2')
    ∧ console w1' = console converged ++ lines1
    ∧ console w2' = console converged ++ lines2
    ∧ without_addresses <$> lines1 = without_addresses <$> lines2
    ∧ ttl packet1' = ttl packet2'.
Proof.
  assert (Hok : closed converged) by decide_by_compute.
  exact (X16_same_prefix_same_route converged 0 _ myPacket
           (Packet_new "192.168.2.4" "192.168.3.200" "other")
           Hok eq_refl eq_refl eq_refl).
Defined.

(** ** Routing updates and the packets they do not concern *)

(** A journey reads the router store through names, neighbor maps and the
    table entries for the packet's own prefix: two worlds that agree on
    those route the packet alike. *)
Lemma journey_reads_own_prefix_only w w' self packet :
  closed w →
  same_links w w' →
  (∀ l, Map_get (getNetworkPrefix (destinationIp packet)) (table_at w' l)
        = Map_get (getNetworkPrefix (destinationIp packet)) (table_at w l)) →
  is_Some (routers w !! self) →
  ∃ packet' wa wb lines,
    receivePacket self packet w = Some (packet', wa)
    ∧ receivePacket self packet w' = Some (packet', wb)
    ∧ console wa = console w ++ lines
    ∧ console wb = console w' ++ lines.
Proof.
  intros Hok Hsame Htab.
  cut (∀ w0 w0', routers w0 = routers w → routers w0' = routers w' →
        is_Some (routers w !! self) →
        ∃ packet' wa wb lines,
          receivePacket self packet w0 = Some (packet', wa)
          ∧ receivePacket self packet w0' = Some (packet', wb)
          ∧ console wa = console w0 ++ lines
          ∧ console wb = console w0' ++ lines).
  { intros Hcut. by apply Hcut. }
  remember (Z.to_nat (ttl packet)) as n eqn:Hn.
  revert self packet Htab Hn.
  induction n as [n IH] using lt_wf_ind.
  intros self packet Htab Hn w0 w0' Hr0 Hr0' [this Hl].
  destruct (proj2 Hsame _ _ Hl) as (this' & Hl' & Hname & Hnbs).
  specialize (Htab self) as Hroute.
  rewrite (table_at_lookup _ _ _ Hl), (table_at_lookup _ _ _ Hl') in Hroute.
  rewrite !receivePacket_body, Hr0, Hr0', Hl, Hl'. simpl.
  rewrite Hname, Hnbs, Hroute.
  set (line := RECEIVE (name this) (sourceIp packet) (destinationIp packet)).
  assert (Hend : ∀ closing,
            ∃ packet' wa wb lines,
              Some (decrement_ttl packet, log closing (log line w0)) = Some (packet', wa)
              ∧ Some (decrement_ttl packet, log closing (log line w0')) = Some (packet', wb)
              ∧ console wa = console w0 ++ lines
              ∧ console wb = console w0' ++ lines).
  { intros closing.
    exists (decrement_ttl packet), (log closing (log line w0)),
      (log closing (log line w0')), [line; closing].
    split; [done|]. split; [done|]. split; simpl; by rewrite <- app_assoc. }
  destruct (decide (ttl packet - 1 <= 0)) as [Hle|Hgt]; [by apply Hend|].
  destruct (Map_get _ (routingTable this)) as [nextHopRouterName|]; [|by apply Hend].
  destruct (Map_get _ (neighbors this)) as [nextHop|] eqn:Hnb; [|by apply Hend].
  apply Map_get_Some_elem in Hnb.
  destruct (closed_lookup _ _ _ _ _ Hok Hl Hnb) as (nextHopRouter & Hnext).
  destruct (proj2 Hsame _ _ Hnext) as (nextHopRouter' & Hnext' & Hname' & _).
  rewrite Hnext, Hnext', Hname'.
  set (w1 := log (FORWARD _ _ _) (log line w0)).
  set (w1' := log (FORWARD _ _ _) (log line w0')).
  destruct (IH (Z.to_nat (ttl (decrement_ttl packet))) ltac:(simpl; lia)
              nextHop (decrement_ttl packet) Htab eq_refl w1 w1' Hr0 Hr0'
              ltac:(eauto))
    as (packet' & wa & wb & lines & Hrun & Hrun' & Hc & Hc').
  exists packet', wa, wb,
    ([line; FORWARD (name this) (destinationIp packet) (name nextHopRouter)] ++ lines).
  split; [done|]. split; [done|].
  split; [rewrite Hc|rewrite Hc']; simpl; by rewrite <- !app_assoc.
Qed.

(** X17. A routing update for one prefix does not change how packets for
    another prefix travel: after [receiveRoutingUpdate] on any router, a
    packet whose destination lies in a different prefix ends with the same
    ttl and prints the same lines, from whichever router it starts. *)
Theorem X17_update_of_other_prefix (w : World) (target self : Loc)
    (r this : Router) (networkPrefix nextHop : string) (metric_arg : option Z)
    (packet : Packet) :
  closed w →
  routers w !! target = Some r →
  routers w !! self = Some this →
  networkPrefix ≠ getNetworkPrefix (destinationIp packet) →
  ∃ w_updated packet' wa wb lines,
    receiveRoutingUpdate target networkPrefix nextHop metric_arg w = Some w_updated
    ∧ receivePacket self packet w = Some (packet', wa)
    ∧ receivePacket self packet w_updated = Some (packet', wb)
    ∧ console wa = console w ++ lines
    ∧ console wb = console w_updated ++ lines.
Proof.
  intros Hok Hr Hl Hne.
  pose proof (receiveRoutingUpdate_Some w target r networkPrefix nextHop metric_arg Hr)
    as Hupd.
  destruct (journey_reads_own_prefix_only w _ self packet Hok
              (receiveRoutingUpdate_same_links _ _ _ _ _ _ Hupd))
    as (packet' & wa & wb & lines & Hrun & Hrun' & Hc & Hc'); [|eauto|].
  { intros l. rewrite (receiveRoutingUpdate_table _ _ _ _ _ _ l Hupd).
    destruct (decide (l = target)); [|done]. by apply Map_get_set_ne. }
  eexists _, packet', wa, wb, lines. split; [exact Hupd|]. done.
Qed.

Lemma X17_witness :
  ∃ w_updated packet' wa wb lines,
    receiveRoutingUpdate 1 "192.168.1.0/24" "R3" None converged = Some w_updated
    ∧ receivePacket 0 myPacket converged = Some (packet', wa)
    ∧ receivePacket 0 myPacket w_updated = Some (packet', wb)
    ∧ console wa = console converged ++ lines
    ∧ console wb = console w_updated ++ lines.
Proof.
  assert (Hok : closed converged) by decide_by_compute.
  assert (Hne : "192.168.1.0/24" ≠ getNetworkPrefix (destinationIp myPacket))
    by (vm_compute; discriminate).
  exact (X17_update_of_other_prefix converged 1 0 _ _ "192.168.1.0/24" "R3" None
           myPacket Hok eq_refl eq_refl Hne).
Defined.

(** X18. Two routing updates that do not write the same prefix of the same
    router can be made in either order: both orders return, and afterwards
    every lookup in every routing table gives the same answer (the tables
    may list their entries in a different order), and names and neighbor
    maps agree. *)
Theorem X18_updates_commute (w : World) (l1 l2 : Loc) (r1 r2 : Router)
    (p1 p2 nh1 nh2 : string) (m1 m2 : option Z) :
  routers w !! l1 = Some r1 →
  routers w !! l2 = Some r2 →
  (l1, p1) ≠ (l2, p2) →
  ∃ wa wa' wb wb',
    receiveRoutingUpdate l1 p1 nh1 m1 w = Some wa
    ∧ receiveRoutingUpdate l2 p2 nh2 m2 wa = Some wa'
    ∧ receiveRoutingUpdate l2 p2 nh2 m2 w = Some wb
    ∧ receiveRoutingUpdate l1 p1 nh1 m1 wb = Some wb'
    ∧ same_links wa' wb'
    ∧ ∀ l q, Map_get q (table_at wa' l) = Map_get q (table_at wb' l).
Proof.
  intros H1 H2 Hne.
  pose proof (receiveRoutingUpdate_Some w l1 r1 p1 nh1 m1 H1) as Ha.
  pose proof (receiveRoutingUpdate_Some w l2 r2 p2 nh2 m2 H2) as Hb.
  destruct (proj2 (receiveRoutingUpdate_same_links _ _ _ _ _ _ Ha) _ _ H2)
    as (r2' & H2' & _).
  destruct (proj2 (receiveRoutingUpdate_same_links _ _ _ _ _ _ Hb) _ _ H1)
    as (r1' & H1' & _).
  pose proof (receiveRoutingUpdate_Some _ l2 r2' p2 nh2 m2 H2') as Ha'.
  pose proof (receiveRoutingUpdate_Some _ l1 r1' p1 nh1 m1 H1') as Hb'.
  eexists _, _, _, _. split; [exact Ha|]. split; [exact Ha'|].
  split; [exact Hb|]. split; [exact Hb'|]. split.
  - pose proof (receiveRoutingUpdate_same_links _ _ _ _ _ _ Ha) as Sa.
    pose proof (receiveRoutingUpdate_same_links _ _ _ _ _ _ Ha') as Sa'.
    pose proof (receiveRoutingUpdate_same_links _ _ _ _ _ _ Hb) as Sb.
    pose proof (receiveRoutingUpdate_same_links _ _ _ _ _ _ Hb') as Sb'.
    apply (same_links_trans _ w).
    + apply same_links_sym. exact (same_links_trans _ _ _ Sa Sa').
    + exact (same_links_trans _ _ _ Sb Sb').
  - intros l q.
    rewrite (receiveRoutingUpdate_table _ _ _ _ _ _ l Ha'),
            (receiveRoutingUpdate_table _ _ _ _ _ _ l Hb'),
            (receiveRoutingUpdate_table _ _ _ _ _ _ l Ha),
            (receiveRoutingUpdate_table _ _ _ _ _ _ l Hb).
    destruct (decide (l = l1)) as [E1|N1]; destruct (decide (l = l2)) as [E2|N2];
      rewrite ?Map_get_set; try done.
    destruct (decide (q = p1)) as [Q1|Q1]; destruct (decide (q = p2)) as [Q2|Q2];
      try done.
    exfalso. apply Hne. congruence.
Qed.

Lemma X18_witness :
  ∃ wa' wb',
    (receiveRoutingUpdate 0 "10.0.0.0/24" "R2" None converged
       ≫= receiveRoutingUpdate 0 "10.0.1.0/24" "R2" None) = Some wa'
    ∧ (receiveRoutingUpdate 0 "10.0.1.0/24" "R2" None converged
         ≫= receiveRoutingUpdate 0 "10.0.0.0/24" "R2" None) = Some wb'
    ∧ ∀ l q, Map_get q (table_at wa' l) = Map_get q (table_at wb' l).
Proof.
  assert (Hne : (0%nat, "10.0.0.0/24") ≠ (0%nat, "10.0.1.0/24")) by discriminate.
  destruct (X18_updates_commute converged 0 0 _ _ "10.0.0.0/24" "10.0.1.0/24"
              "R2" "R2" None None eq_refl eq_refl Hne)
    as (wa & wa' & wb & wb' & Ha & Ha' & Hb & Hb' & _ & Hsame).
  exists wa', wb'. rewrite Ha, Hb. exact (conj Ha' (conj Hb' Hsame)).
Defined.
